(** * AsyncIt.py: the asynchronous JSON request server ([server/server.py])

    A shallow embedding of [AServer]: the connection loop
    [handle_connection], the shutdown path [stop] and the output routine
    [write], together with the parts of the Python runtime they lean on
    ([str.replace], [str.encode], [bytes.decode('ascii')],
    [StreamReader.readuntil], [StreamWriter.write]/[drain] and
    [asyncio.wait_for]).

    Conventions.
    - A Python [str] is a list of Unicode code points, [bytes] a list of
      byte values; both are lists of [N].
    - Code that raises returns a [result]; code that touches the server
      object, a connection or the clock runs in the monad [M] (state and
      exceptions; the state survives a raise, as in Python).
    - Time is logical: a coroutine spends time only where it is
      suspended (a sleep, a [drain] that waits for the transport), the
      code between two suspensions takes none; the clock [now] counts
      seconds as rationals.
    - The library is asyncio as Python 3.8 to 3.11 have it (the reader,
      [wait_for] and the tasks were read in the sources of 3.11).
    - A task runs from one suspension in [readuntil] to the next; the
      callback it awaits in between is run to its end within that turn.
      What other tasks do while a callback is suspended is not modelled:
      the statements about a pass say what the pass itself does.
    - Logging calls are left out: they never raise and touch nothing but
      the log stream. *)

From Stdlib Require Import String Ascii QArith Lqa FunctionalExtensionality.
From stdpp Require Import gmap list functions.

Open Scope N_scope.

(** ** Strings and bytes *)

Abbreviation pystr := (list N).
Abbreviation bytes := (list N).

(** A string literal of the source, as code points. *)
Fixpoint str (s : string) : pystr :=
  match s with
  | EmptyString => []
  | String a s' => N_of_ascii a :: str s'
  end.

(** The same, for a literal that holds double quotes: they are written as
    single quotes here. *)
Definition dq (s : string) : pystr :=
  map (fun c => if c =? 39 then 34 else c) (str s).

Definition CR : N := 13.
Definition LF : N := 10.
Definition PERCENT : N := 37.

(** The separator [b"\r\n"] of line 91. *)
Definition CRLF : bytes := [CR; LF].

(** ** Exceptions *)

Inductive exn :=
| SystemExit
| KeyError
| TypeError
| AttributeError
| JSONDecodeError
| UnicodeDecodeError
| UnicodeEncodeError
| TimeoutError
| LimitOverrunError
| IncompleteReadError (partial : bytes)
| ConnectionResetError
| ConnectionAbortedError
| BrokenPipeError
| UserError (name : pystr)       (* a class of the program, under Exception *)
| KeyboardInterrupt
| CancelledError.

(** The exceptions that the step of a task raises into the event loop
    ([Task.__step]). *)
Definition is_exit (e : exn) : bool :=
  match e with
  | SystemExit | KeyboardInterrupt => true
  | _ => false
  end.

(** [isinstance(e, ConnectionError)]. *)
Definition is_ConnectionError (e : exn) : bool :=
  match e with
  | ConnectionResetError | ConnectionAbortedError | BrokenPipeError => true
  | _ => false
  end.

Definition is_IncompleteReadError (e : exn) : bool :=
  match e with
  | IncompleteReadError _ => true
  | _ => false
  end.

Inductive result (A : Type) :=
| Ok (a : A)
| Raise (e : exn).
Arguments Ok {A} a.
Arguments Raise {A} e.

(** ** [str.replace], [str.encode] and [bytes.decode('ascii')] *)

(** [s.replace(old, new)] for a pattern [old] of one character, the only
    use in the source (line 130). *)
Definition replace (old : N) (new : pystr) (s : pystr) : pystr :=
  flat_map (fun c => if c =? old then new else [c]) s.

(** UTF-8 encoding of one code point; a surrogate (U+D800..U+DFFF) cannot
    be encoded, and nothing above U+10FFFF is a character. *)
Definition encode_char (c : N) : option bytes :=
  if c <? 0x80 then Some [c]
  else if c <? 0x800 then
    Some [0xC0 + c / 64; 0x80 + c mod 64]
  else if c <? 0x10000 then
    if (0xD800 <=? c) && (c <=? 0xDFFF) then None
    else Some [0xE0 + c / 4096; 0x80 + (c / 64) mod 64; 0x80 + c mod 64]
  else if c <? 0x110000 then
    Some [0xF0 + c / 262144; 0x80 + (c / 4096) mod 64;
          0x80 + (c / 64) mod 64; 0x80 + c mod 64]
  else None.

(** [s.encode()]: UTF-8, raising [UnicodeEncodeError] at the first
    character that has no encoding. *)
Fixpoint encode (s : pystr) : result bytes :=
  match s with
  | [] => Ok []
  | c :: s' =>
    match encode_char c with
    | None => Raise UnicodeEncodeError
    | Some bs =>
      match encode s' with
      | Ok rest => Ok (bs ++ rest)
      | Raise e => Raise e
      end
    end
  end.

(** A character that UTF-8 can encode: a code point that is no surrogate. *)
Definition encodable (c : N) : bool :=
  (c <? 0xD800) || ((0xDFFF <? c) && (c <? 0x110000)).

(** [b.decode('ascii')]. *)
Definition decode_ascii (b : bytes) : result pystr :=
  if forallb (fun x => x <? 128) b then Ok b else Raise UnicodeDecodeError.

(** ** JSON values, as [json.loads] builds them *)

#[local] Set Warnings "-register-all".
Inductive pyval :=
| PNone
| PBool (b : bool)
| PInt (z : Z)
| PFloat (literal : pystr)
| PStr (s : pystr)
| PList (l : list pyval)
| PDict (d : list (pystr * pyval)).

(** Lookup in a [dict] kept as an association list, first binding wins. *)
Fixpoint assoc (k : pystr) (d : list (pystr * pyval)) : option pyval :=
  match d with
  | [] => None
  | (k', v) :: d' => if decide (k = k') then Some v else assoc k d'
  end.

(** [data[key]] for a [str] key. *)
Definition getitem (data : pyval) (key : pystr) : result pyval :=
  match data with
  | PDict d =>
    match assoc key d with
    | Some v => Ok v
    | None => Raise KeyError
    end
  | _ => Raise TypeError
  end.

(** [v == s] for a [str] literal [s]. *)
Definition eq_str (v : pyval) (s : pystr) : bool :=
  match v with
  | PStr t => bool_decide (t = s)
  | _ => false
  end.

(** ** A parser for JSON texts

    [json.loads] belongs to the standard library; the server code below
    takes it as a parameter, and what is proved of the server holds for
    every parser. [json.loads] here is a parser to run the server on
    actual texts: JSON as [json.loads] reads it (with [NaN], [Infinity] and
    [-Infinity]), a number with a fraction or an exponent kept as its
    literal. *)
Module json.

Definition is_ws (c : N) : bool :=
  (c =? 32) || (c =? 9) || (c =? 10) || (c =? 13).

Fixpoint skip_ws (s : pystr) : pystr :=
  match s with
  | c :: s' => if is_ws c then skip_ws s' else s
  | [] => []
  end.

Definition is_digit (c : N) : bool := (48 <=? c) && (c <=? 57).

Definition hex_digit (c : N) : option N :=
  if is_digit c then Some (c - 48)
  else if (65 <=? c) && (c <=? 70) then Some (c - 55)
  else if (97 <=? c) && (c <=? 102) then Some (c - 87)
  else None.

Definition hex4 (a b c d : N) : option N :=
  a ← hex_digit a; b ← hex_digit b; c ← hex_digit c; d ← hex_digit d;
  Some (((a * 16 + b) * 16 + c) * 16 + d).

(** The characters of a string after its opening quote, escapes kept as
    code units ([\uXXXX] may give half of a surrogate pair). *)
Fixpoint scan_units (s : pystr) : option (pystr * pystr) :=
  match s with
  | [] => None
  | 34 :: s' => Some ([], s')
  | 92 :: 117 :: a :: b :: c :: d :: s' =>
    u ← hex4 a b c d;
    '(t, rest) ← scan_units s';
    Some (u :: t, rest)
  | 92 :: e :: s' =>
    u ← (if e =? 34 then Some 34 else if e =? 92 then Some 92
         else if e =? 47 then Some 47 else if e =? 98 then Some 8
         else if e =? 102 then Some 12 else if e =? 110 then Some 10
         else if e =? 114 then Some 13 else if e =? 116 then Some 9
         else None);
    '(t, rest) ← scan_units s';
    Some (u :: t, rest)
  | c :: s' =>
    if (c <? 32) || (c =? 92) then None
    else '(t, rest) ← scan_units s'; Some (c :: t, rest)
  end.

(** A high surrogate followed by a low one is one character. *)
Fixpoint join_surrogates (s : pystr) : pystr :=
  match s with
  | hi :: s' =>
    match s' with
    | lo :: s'' =>
      if (0xD800 <=? hi) && (hi <=? 0xDBFF) && (0xDC00 <=? lo) && (lo <=? 0xDFFF)
      then 0x10000 + (hi - 0xD800) * 1024 + (lo - 0xDC00) :: join_surrogates s''
      else hi :: join_surrogates s'
    | [] => [hi]
    end
  | [] => []
  end.

Definition scanstring (s : pystr) : option (pystr * pystr) :=
  '(t, rest) ← scan_units s; Some (join_surrogates t, rest).

Fixpoint digits (s : pystr) : pystr * pystr :=
  match s with
  | c :: s' => if is_digit c then let (d, r) := digits s' in (c :: d, r)
               else ([], s)
  | [] => ([], [])
  end.

Definition nat_of_digits (d : pystr) : Z :=
  foldl (fun acc c => acc * 10 + Z.of_N (c - 48))%Z 0%Z d.

(** [NUMBER_RE]: an optional minus sign, then 0 or a digit from 1 to 9
    and more digits; then, optionally, a point and digits; then,
    optionally, e or E, a sign and digits. *)
Definition scan_number (s : pystr) : option (pyval * pystr) :=
  let (neg, s1) := match s with 45 :: t => (true, t) | _ => (false, s) end in
  let (int, s2) := match s1 with
                   | 48 :: t => ([48], t)
                   | _ => digits s1
                   end in
  match int with
  | [] => None
  | _ =>
    let (frac, s3) := match s2 with
                      | 46 :: t => match digits t with
                                   | ([], _) => ([], s2)
                                   | (d, r) => (46 :: d, r)
                                   end
                      | _ => ([], s2)
                      end in
    let (exp, s4) :=
      match s3 with
      | e :: t =>
        if (e =? 69) || (e =? 101) then
          let (sign, t') := match t with
                            | 43 :: u => ([43], u)
                            | 45 :: u => ([45], u)
                            | _ => ([], t)
                            end in
          match digits t' with
          | ([], _) => ([], s3)
          | (d, r) => (e :: sign ++ d, r)
          end
        else ([], s3)
      | [] => ([], s3)
      end in
    match frac, exp with
    | [], [] => Some (PInt (if neg then - nat_of_digits int
                            else nat_of_digits int)%Z, s4)
    | _, _ => Some (PFloat ((if neg then [45] else []) ++ int ++ frac ++ exp), s4)
    end
  end.

Definition literal (word : string) (v : pyval) (s : pystr)
  : option (pyval * pystr) :=
  let w := str word in
  if bool_decide (take (length w) s = w) then Some (v, drop (length w) s)
  else None.

(** [dict[k] = v] on an association list. *)
Fixpoint dict_set (k : pystr) (v : pyval) (d : list (pystr * pyval))
  : list (pystr * pyval) :=
  match d with
  | [] => [(k, v)]
  | (k', v') :: d' => if decide (k = k') then (k, v) :: d'
                      else (k', v') :: dict_set k v d'
  end.

Fixpoint scan_once (fuel : nat) (s : pystr) : option (pyval * pystr) :=
  match fuel with
  | O => None
  | S fuel' =>
    match s with
    | 34 :: s' => '(t, rest) ← scanstring s'; Some (PStr t, rest)
    | 123 :: s' =>
      match skip_ws s' with
      | 125 :: rest => Some (PDict [], rest)
      | s'' => parse_object fuel' [] s''
      end
    | 91 :: s' =>
      match skip_ws s' with
      | 93 :: rest => Some (PList [], rest)
      | s'' => parse_array fuel' [] s''
      end
    | 110 :: _ => literal "null" PNone s
    | 116 :: _ => literal "true" (PBool true) s
    | 102 :: _ => literal "false" (PBool false) s
    | _ =>
      match scan_number s with
      | Some r => Some r
      | None =>
        match literal "NaN" (PFloat (str "nan")) s with
        | Some r => Some r
        | None =>
          match literal "Infinity" (PFloat (str "inf")) s with
          | Some r => Some r
          | None => literal "-Infinity" (PFloat (str "-inf")) s
          end
        end
      end
    end
  end
with parse_array (fuel : nat) (acc : list pyval) (s : pystr)
  : option (pyval * pystr) :=
  match fuel with
  | O => None
  | S fuel' =>
    '(v, rest) ← scan_once fuel' s;
    match skip_ws rest with
    | 93 :: rest' => Some (PList (acc ++ [v]), rest')
    | 44 :: rest' => parse_array fuel' (acc ++ [v]) (skip_ws rest')
    | _ => None
    end
  end
with parse_object (fuel : nat) (acc : list (pystr * pyval)) (s : pystr)
  : option (pyval * pystr) :=
  match fuel with
  | O => None
  | S fuel' =>
    match s with
    | 34 :: s' =>
      '(k, rest) ← scanstring s';
      match skip_ws rest with
      | 58 :: rest' =>
        '(v, rest'') ← scan_once fuel' (skip_ws rest');
        match skip_ws rest'' with
        | 125 :: r => Some (PDict (dict_set k v acc), r)
        | 44 :: r => parse_object fuel' (dict_set k v acc) (skip_ws r)
        | _ => None
        end
      | _ => None
      end
    | _ => None
    end
  end.

Definition loads (s : pystr) : result pyval :=
  match scan_once (2 * length s + 2) (skip_ws s) with
  | Some (v, rest) =>
    match skip_ws rest with
    | [] => Ok v
    | _ => Raise JSONDecodeError
    end
  | None => Raise JSONDecodeError
  end.

End json.

(** ** The stream reader of a connection ([asyncio.StreamReader]) *)

Record StreamReader := mkReader {
  _buffer : bytes;               (* received, not yet consumed *)
  _eof : bool;                   (* feed_eof() was called *)
  _exception : option exn;       (* set_exception(exc) was called *)
  _limit : N                     (* the limit the stream was opened with *)
}.

(** [asyncio.streams._DEFAULT_LIMIT], the limit [start_server] passes on
    when line 60 names none. *)
Definition _DEFAULT_LIMIT : N := 2 ^ 16.

Fixpoint starts_with (sep buf : bytes) : bool :=
  match sep, buf with
  | [], _ => true
  | _ :: _, [] => false
  | x :: sep', y :: buf' => (x =? y) && starts_with sep' buf'
  end.

(** [buf.find(sep)]: the index of the first occurrence, [None] for -1. *)
Fixpoint find (sep buf : bytes) : option nat :=
  if starts_with sep buf then Some 0%nat
  else match buf with
       | [] => None
       | _ :: buf' => S <$> find sep buf'
       end.

Inductive read_outcome :=
| RChunk (chunk : bytes)         (* the call returns [chunk] *)
| RRaise (e : exn)               (* the call raises *)
| RWait.                         (* the call suspends in _wait_for_data *)

(** [reader.readuntil(separator)] for a separator that is not empty. A call
    that was suspended and is woken up is taken as a fresh call on the
    reader as it is then: the bytes before [offset] hold no separator, so
    the search and both limit tests come out the same. *)
Definition readuntil (separator : bytes) (r : StreamReader)
  : read_outcome * StreamReader :=
  let seplen := length separator in
  match _exception r with
  | Some e => (RRaise e, r)
  | None =>
    let buflen := length (_buffer r) in
    match (if bool_decide (seplen <= buflen)%nat
           then find separator (_buffer r) else None) with
    | Some isep =>
      if _limit r <? N.of_nat isep then (RRaise LimitOverrunError, r)
      else (RChunk (take (isep + seplen) (_buffer r)),
            mkReader (drop (isep + seplen) (_buffer r))
                     (_eof r) (_exception r) (_limit r))
    | None =>
      if bool_decide (seplen <= buflen)%nat
         && (_limit r <? N.of_nat (buflen + 1 - seplen))
      then (RRaise LimitOverrunError, r)
      else if _eof r
      then (RRaise (IncompleteReadError (_buffer r)),
            mkReader [] (_eof r) (_exception r) (_limit r))
      else (RWait, r)
    end
  end.

(** How many times the separator occurs in a buffer. *)
Fixpoint count_sep (sep buf : bytes) : nat :=
  match buf with
  | [] => 0
  | _ :: buf' => (if starts_with sep buf then 1 else 0) + count_sep sep buf'
  end.

Definition consume (n : nat) (r : StreamReader) : StreamReader :=
  mkReader (drop n (_buffer r)) (_eof r) (_exception r) (_limit r).

(** The frames a reader yields to a loop that keeps calling
    [readuntil(b"\r\n")], up to the first call that does not return, and
    the reader as that call finds it. *)
Fixpoint read_frames (fuel : nat) (r : StreamReader)
  : list bytes * StreamReader :=
  match fuel with
  | O => ([], r)
  | S fuel' =>
    match readuntil CRLF r with
    | (RChunk chunk, r') =>
      let (fs, r'') := read_frames fuel' r' in (chunk :: fs, r'')
    | _ => ([], r)
    end
  end.

Definition frames (r : StreamReader) : list bytes * StreamReader :=
  read_frames (length (_buffer r)) r.

(** The reader of a connection that has broken: an exception of the
    connection was set on it, or the stream ended with part of a frame
    (or nothing) in the buffer. *)
Definition reader_failed (r : StreamReader) : Prop :=
  (exists e, _exception r = Some e /\ is_ConnectionError e = true)
  \/ (_exception r = None /\ _eof r = true
      /\ find CRLF (_buffer r) = None
      /\ N.of_nat (length (_buffer r)) <= _limit r + 1).

(** ** Connections, the server object and the world *)

(** Where the task that runs [handle_connection] for a connection is. *)
Inductive task_state :=
| NotStarted
| Suspended                      (* waiting in readuntil *)
| Finished                       (* handle_connection returned *)
| Failed (e : exn)               (* handle_connection raised e *)
| Diverged                       (* the loop ran out of fuel: never happens *)
| Abandoned.                     (* waiting in wait_for, the event loop down *)

Record Connection := mkConn {
  reader : StreamReader;
  submitted : bytes;             (* all that writer.write() was given *)
  _connection_lost : bool;       (* protocol.connection_lost() was called *)
  task : task_state
}.

Inductive EventLoop := TheEventLoop.

(** The attributes of an [AServer] (lines 43-51); a writer is named by the
    number of its connection. *)
Record AServer := mkServer {
  port : Z;
  BUFFER_SIZE : Z;
  __writer : option nat;
  __alive : bool;
  __loop : option EventLoop
}.

(** What the outside sees of a run, oldest first. *)
Inductive event :=
| EvLoopStop                               (* loop.stop() *)
| EvExit                                   (* exit() *)
| EvInvoke (type : pystr) (data : pyval)   (* a request callback is called *)
| EvCancel                                 (* wait_for cancels the callback *)
| EvAbort (e : exn).                       (* e leaves the event loop *)

Record World := mkWorld {
  self : AServer;
  conns : nat -> Connection;
  now : Q;
  trace : list event
}.

(** A connection that has not been accepted yet. *)
Definition new_connection : Connection :=
  mkConn (mkReader [] false None _DEFAULT_LIMIT) [] false NotStarted.

(** [AServer(port)] (lines 36-51), before any connection. *)
Definition __init__ (port : Z) : World :=
  mkWorld (mkServer port 2048 None false None) (fun _ => new_connection) 0 [].

(** The server object, the readers and the tasks are the same in both
    worlds. *)
Definition same_server (w w' : World) : Prop :=
  self w' = self w
  /\ forall d, reader (conns w' d) = reader (conns w d)
               /\ _connection_lost (conns w' d) = _connection_lost (conns w d)
               /\ task (conns w' d) = task (conns w d).

(** ** The monad of the server code *)

Definition M (A : Type) : Type := World -> result A * World.

#[global] Instance M_ret : MRet M := fun A a w => (Ok a, w).
#[global] Instance M_bind : MBind M := fun A B f m w =>
  match m w with
  | (Ok a, w') => f a w'
  | (Raise e, w') => (Raise e, w')
  end.

Definition raise {A} (e : exn) : M A := fun w => (Raise e, w).

Definition lift {A} (r : result A) : M A := fun w => (r, w).

Definition gets {A} (f : World -> A) : M A := fun w => (Ok (f w), w).

Definition modify (f : World -> World) : M unit := fun w => (Ok tt, f w).

(** [try: m  except: ...] with a bare except clause: the outcome of [m],
    caught. *)
Definition attempt {A} (m : M A) : M (result A) := fun w =>
  let (r, w') := m w in (Ok r, w').

Definition is_abort (e : event) : bool :=
  match e with
  | EvAbort _ => true
  | _ => false
  end.

(** How many times an exception has left the event loop and brought it
    down. *)
Definition aborts (w : World) : nat :=
  length (List.filter is_abort (trace w)).

(** [try: m  except: pass]: every exception dies. When the event loop
    has gone down under [m], the coroutine is not resumed and the clause
    is not reached: the exception that left the loop is what is left of
    [m]. *)
Definition suppress (m : M unit) : M unit := fun w =>
  match m w with
  | (Ok _, w') => (Ok tt, w')
  | (Raise e, w') =>
    if bool_decide (aborts w' = aborts w) then (Ok tt, w') else (Raise e, w')
  end.

Definition set_self (f : AServer -> AServer) : M unit :=
  modify (fun w => mkWorld (f (self w)) (conns w) (now w) (trace w)).

Definition set_writer (v : option nat) : M unit :=
  set_self (fun s => mkServer (port s) (BUFFER_SIZE s) v (__alive s) (__loop s)).

Definition set_alive (v : bool) : M unit :=
  set_self (fun s => mkServer (port s) (BUFFER_SIZE s) (__writer s) v (__loop s)).

Definition set_loop (v : option EventLoop) : M unit :=
  set_self (fun s => mkServer (port s) (BUFFER_SIZE s) (__writer s) (__alive s) v).

Definition set_conn (c : nat) (f : Connection -> Connection) : M unit :=
  modify (fun w => mkWorld (self w) (<[c := f (conns w c)]> (conns w))
                           (now w) (trace w)).

Definition emit (e : event) : M unit :=
  modify (fun w => mkWorld (self w) (conns w) (now w) (trace w ++ [e])).

Definition elapse (d : Q) : M unit :=
  modify (fun w => mkWorld (self w) (conns w) (now w + d)%Q (trace w)).

(** The world after [readuntil] has left the reader of [c] as [r']. *)
Definition advance (c : nat) (r' : StreamReader) (w : World) : World :=
  mkWorld (self w)
          (<[c := mkConn r' (submitted (conns w c))
                         (_connection_lost (conns w c)) (task (conns w c))]>
             (conns w))
          (now w) (trace w).

(** The world after the callback for [type] has been called on [data]. *)
Definition invoked (type : pystr) (data : pyval) (w : World) : World :=
  mkWorld (self w) (conns w) (now w) (trace w ++ [EvInvoke type data]).

(** The world after [stop()] on a started server. *)
Definition stopped (w : World) : World :=
  mkWorld (mkServer (port (self w)) (BUFFER_SIZE (self w)) (__writer (self w))
                    false (__loop (self w)))
          (conns w) (now w) (trace w ++ [EvLoopStop; EvExit]).

(** ** The writer of a connection ([asyncio.StreamWriter]) *)

(** [writer.write(data)]: the bytes go to the transport, nothing is raised. *)
Definition writer_write (c : nat) (data : bytes) : M unit :=
  set_conn c (fun cn => mkConn (reader cn) (submitted cn ++ data)
                               (_connection_lost cn) (task cn)).

(** The world after [writer.write(data)] on the writer of [c]. *)
Definition submit (c : nat) (data : bytes) (w : World) : World :=
  (writer_write c data w).2.

(** [await writer.drain()]: raises the exception of the reader if one was
    set, [ConnectionResetError] if the connection was lost. Otherwise it
    returns at once: the transport is not paused. (For a paused
    transport, on which [drain] waits, see [write_paused].) *)
Definition drain (c : nat) : M unit :=
  cn ← gets (fun w => conns w c);
  match _exception (reader cn) with
  | Some e => raise e
  | None => if _connection_lost cn then raise ConnectionResetError else mret tt
  end.

(** [drain] on the writer of [c] raises. *)
Definition drain_fails (w : World) (c : nat) : bool :=
  match _exception (reader (conns w c)) with
  | Some _ => true
  | None => _connection_lost (conns w c)
  end.

(** ** [AServer.write] (lines 122-136) *)

Definition write (message : pystr) : M bool :=
  wr ← gets (fun w => __writer (self w));
  match wr with
  | None => mret false
  | Some c =>
    let message := replace PERCENT (str "%%") message in
    data ← lift (encode message);
    writer_write c data;;
    drained ← attempt (drain c);
    match drained with
    | Ok _ => mret true
    | Raise _ => mret false
    end
  end.

(** ** Request callbacks *)

(** A request callback is a coroutine over the server object. What it does
    to the server is calling [self.write]; it may sleep, return or raise.
    The result of a [write] (a value or an exception) is handed to the
    rest of the coroutine, which may go on or re-raise. A callback may
    sleep inside a [try] that catches its cancellation, and it may call
    [self.write] while the transport is paused, so that [drain] waits.
    The code of a callback between two suspensions takes no time: a
    callback that keeps the thread without awaiting is not in this
    type. *)
Inductive coro :=
| Return
| Throw (e : exn)
| Sleep (delay : Q) (k : coro)
| AwaitWrite (message : pystr) (k : result bool -> coro)
| SleepTry (delay : Q) (k : coro) (h : coro)
    (* try: await asyncio.sleep(delay)
       except asyncio.CancelledError: h    (and nothing after it)
       k *)
| StalledWrite (message : pystr) (stall : Q) (k : result bool -> coro).
    (* await self.write(message), where the transport stays paused for
       stall seconds if drain comes to wait for it *)

Definition handler : Type := pyval -> coro.

(** The timeout interval for processing a request, in seconds (line 19). *)
Definition REQUEST_TIMEOUT : Q := 5.

(** A sleep of no or negative length takes no time. *)
Definition clamp (d : Q) : Q := if Qle_bool d 0 then 0%Q else d.

(** An exception leaves the coroutine of a callback. The step of its
    task keeps it for whoever awaits the task; [SystemExit] and
    [KeyboardInterrupt] it raises into the event loop as well
    ([Task.__step]): [run_forever()] raises them, the loop is down and
    the coroutine that awaits the callback is not resumed. *)
Definition throw (e : exn) : M unit :=
  (if is_exit e then emit (EvAbort e) else mret tt);; raise e.

(** [AServer.write] (lines 122-136) when the transport of the writer is
    paused and stays so for [stall] seconds: [drain] raises at once as
    in [write], or else waits that long. [timeout] is the time after
    which the task that runs the call is cancelled, if it is: then
    [CancelledError] is raised inside [drain], and the bare [except] of
    line 135 returns [False]. Returns the value of [write] and the time
    the call has taken, [None] when it took the cancellation. *)
Definition write_paused (message : pystr) (stall : Q) (timeout : option Q)
  : M (bool * option Q) :=
  wr ← gets (fun w => __writer (self w));
  match wr with
  | None => mret (false, Some 0%Q)
  | Some c =>
    let message := replace PERCENT (str "%%") message in
    data ← lift (encode message);
    writer_write c data;;
    drained ← attempt (drain c);
    match drained with
    | Raise _ => mret (false, Some 0%Q)
    | Ok _ =>
      match timeout with
      | Some t =>
        if Qle_bool t stall
        then elapse t;; emit EvCancel;; mret (false, None)
        else elapse stall;; mret (true, Some stall)
      | None => elapse stall;; mret (true, Some stall)
      end
    end
  end.

(** A callback from some point on, awaited to its end without a
    timeout: what [await fut] does, and what is left of a callback that
    has taken its cancellation and goes on. *)
Fixpoint finish (fut : coro) : M unit :=
  match fut with
  | Return => mret tt
  | Throw e => throw e
  | Sleep delay k => elapse (clamp delay);; finish k
  | AwaitWrite message k =>
    r ← attempt (write message);
    finish (k r)
  | SleepTry delay k h => elapse (clamp delay);; finish k
  | StalledWrite message stall k =>
    r ← attempt (write_paused message (clamp stall) None);
    finish (k match r with
              | Ok (b, _) => Ok b
              | Raise e => Raise e
              end)
  end.

(** The end of [wait_for] after the timeout: the cancelled callback is
    awaited to its end ([_cancel_and_wait]); its result is returned or
    its exception raised, and only when it ended on [CancelledError] is
    [TimeoutError] raised. *)
Definition after_cancel (fut : coro) : M unit := fun w =>
  match finish fut w with
  | (Raise CancelledError, w') => (Raise TimeoutError, w')
  | rw => rw
  end.

(** [await asyncio.wait_for(fut, timeout)] for a positive [timeout]: the
    callback runs in a task of its own until it ends or until [timeout]
    seconds have gone by while it is suspended; then [CancelledError] is
    thrown into it where it is suspended, once. A plain sleep ends on
    it; a sleep that catches it goes on with its handler; in
    [self.write] the bare [except] of line 135 takes it. *)
Fixpoint wait_for (fut : coro) (timeout : Q) : M unit :=
  match fut with
  | Return => mret tt
  | Throw e => throw e
  | Sleep delay k =>
    let delay := clamp delay in
    if Qle_bool timeout delay
    then elapse timeout;; emit EvCancel;; raise TimeoutError
    else elapse delay;; wait_for k (timeout - delay)%Q
  | AwaitWrite message k =>
    r ← attempt (write message);
    wait_for (k r) timeout
  | SleepTry delay k h =>
    let delay := clamp delay in
    if Qle_bool timeout delay
    then elapse timeout;; emit EvCancel;; after_cancel h
    else elapse delay;; wait_for k (timeout - delay)%Q
  | StalledWrite message stall k =>
    r ← attempt (write_paused message (clamp stall) (Some timeout));
    match r with
    | Ok (b, Some spent) => wait_for (k (Ok b)) (timeout - spent)%Q
    | Ok (b, None) => after_cancel (k (Ok b))
    | Raise e => wait_for (k (Raise e)) timeout
    end
  end.

(** [pre], and [k] when [pre] has returned. *)
Fixpoint seq (pre k : coro) : coro :=
  match pre with
  | Return => k
  | Throw e => Throw e
  | Sleep delay p => Sleep delay (seq p k)
  | AwaitWrite message p => AwaitWrite message (fun r => seq (p r) k)
  | SleepTry delay p h => SleepTry delay (seq p k) h
  | StalledWrite message stall p =>
    StalledWrite message stall (fun r => seq (p r) k)
  end.

(** A callback that nowhere raises [SystemExit] or [KeyboardInterrupt]. *)
Fixpoint no_exit (fut : coro) : Prop :=
  match fut with
  | Return => True
  | Throw e => is_exit e = false
  | Sleep _ k => no_exit k
  | AwaitWrite _ k => forall r, no_exit (k r)
  | SleepTry _ k h => no_exit k /\ no_exit h
  | StalledWrite _ _ k => forall r, no_exit (k r)
  end.

(** The world [delay] seconds later. *)
Definition later (delay : Q) (w : World) : World :=
  mkWorld (self w) (conns w) (now w + delay)%Q (trace w).

(** The world when the callback that runs is sent its cancellation. *)
Definition cancelled (w : World) : World :=
  mkWorld (self w) (conns w) (now w) (trace w ++ [EvCancel]).

(** How long a callback takes when nothing cuts it short. *)
Definition lasts (fut : coro) (w : World) : Q :=
  (now (finish fut w).2 - now w)%Q.

(** What the bare [except] of line 113 leaves of the outcome [r] of its
    [try] body, entered in [w] and left in [w']: nothing, unless the
    event loop went down in between. *)
Definition survives (w w' : World) (r : result unit) : result unit :=
  match r with
  | Ok _ => Ok tt
  | Raise e => if bool_decide (aborts w' = aborts w) then Ok tt else Raise e
  end.

(** [wc] is the world [wp] at the moment the timeout of a callback that
    was called in [w1] expires, and the callback is sent its
    cancellation. *)
Definition timed_out (w1 wp wc : World) : Prop :=
  self wc = self wp /\ conns wc = conns wp
  /\ trace wc = trace wp ++ [EvCancel]
  /\ (now wc == now w1 + REQUEST_TIMEOUT)%Q.

(** [funcs.get(key)]: a [list] or a [dict] cannot be hashed; the keys of
    the registry are strings, and only a string equals a string. *)
Definition dict_get (funcs : gmap pystr handler) (key : pyval)
  : result (option handler) :=
  match key with
  | PList _ | PDict _ => Raise TypeError
  | PStr s => Ok (funcs !! s)
  | _ => Ok None
  end.

(** [funcs[key]]. *)
Definition dict_getitem (funcs : gmap pystr handler) (key : pyval)
  : result handler :=
  match dict_get funcs key with
  | Ok (Some h) => Ok h
  | Ok None => Raise KeyError
  | Raise e => Raise e
  end.

(** ** [AServer.start], [AServer.stop] (lines 53-72) *)

(** [start()]: the listening socket is the environment's business, see
    [action]. *)
Definition start : M unit :=
  set_loop (Some TheEventLoop);;
  set_alive true.

(** [stop()]: [self.__loop.stop()] needs a loop; [exit()] raises
    [SystemExit]. *)
Definition stop : M unit :=
  lp ← gets (fun w => __loop (self w));
  match lp with
  | None => raise AttributeError
  | Some _ => emit EvLoopStop
  end;;
  set_alive false;;
  emit EvExit;;
  raise SystemExit.

(** ** [AServer.handle_connection] (lines 75-118) *)

(** [asyncio.streams.IncompleteReadError], as line 116 names it: the
    module [asyncio.streams] has no such attribute (since Python 3.8 the
    class lives in [asyncio.exceptions], and [streams] reaches it as
    [exceptions.IncompleteReadError]), so that looking it up raises
    [AttributeError]. Up to Python 3.7 the module defined the class. *)
Definition streams_IncompleteReadError : result (exn -> bool) :=
  Raise AttributeError.

(** The clause [except (ConnectionError,
    asyncio.streams.IncompleteReadError)] of line 116 meets [e]: the
    tuple is built first, then [e] is tried against it. *)
Definition except_116 (e : exn) : result bool :=
  match streams_IncompleteReadError with
  | Ok cls => Ok (is_ConnectionError e || cls e)
  | Raise e' => Raise e'
  end.

Inductive step :=
| Next                           (* the body ran, back to the loop test *)
| Wait                           (* suspended in readuntil *)
| Break.                         (* the loop test failed *)

Inductive loop_end :=
| Exited
| Waiting
| OutOfFuel.

Section Server.

(** [json.loads]: the parser of the standard library. *)
Variable json_loads : pystr -> result pyval.

(** [request_type.get_types()]: the registry of request callbacks. *)
Variable funcs : gmap pystr handler.

(** [await reader.readuntil(b"\r\n")] on the reader of connection [c];
    [None] when the call suspends. *)
Definition read_frame (c : nat) : M (option bytes) := fun w =>
  let cn := conns w c in
  let (out, r') := readuntil CRLF (reader cn) in
  let w' := mkWorld (self w)
              (<[c := mkConn r' (submitted cn) (_connection_lost cn) (task cn)]>
                 (conns w))
              (now w) (trace w) in
  match out with
  | RChunk chunk => (Ok (Some chunk), w')
  | RRaise e => (Raise e, w')
  | RWait => (Ok None, w')
  end.

(** Lines 99-114: the inner [try], with its bare [except: pass]. *)
Definition dispatch (text : pystr) : M unit :=
  suppress (
    data ← lift (json_loads text);
    type ← lift (getitem data (str "type"));
    (if eq_str type (str "terminate") then stop else mret tt);;
    type ← lift (getitem data (str "type"));
    found ← lift (dict_get funcs type);
    match found with
    | Some _ =>
      type ← lift (getitem data (str "type"));
      callback ← lift (dict_getitem funcs type);
      emit (EvInvoke (match type with PStr s => s | _ => [] end) data);;
      wait_for (callback data) REQUEST_TIMEOUT
    | None => mret tt
    end).

(** Lines 89-114: the loop test and one pass of the body. *)
Definition iteration (c : nat) : M step :=
  alive ← gets (fun w => __alive (self w));
  if negb alive then mret Break
  else
    got ← read_frame c;
    match got with
    | None => mret Wait
    | Some data =>
      match decode_ascii data with
      | Raise UnicodeDecodeError => mret Next
      | Raise e => raise e
      | Ok text => dispatch text;; mret Next
      end
    end.

(** The request the next pass of the loop of connection [c] hands to a
    callback, if it does: the server is alive, a whole frame is in the
    buffer, it decodes and parses to [data], its type is a string other
    than "terminate" and has the callback [h] in the registry. The
    world is the one after the read. *)
Definition next_request (c : nat) (w : World)
  : option (pystr * pyval * handler * World) :=
  if __alive (self w) then
    match readuntil CRLF (reader (conns w c)) with
    | (RChunk chunk, r') =>
      match decode_ascii chunk with
      | Ok text =>
        match json_loads text with
        | Ok data =>
          match getitem data (str "type") with
          | Ok (PStr type) =>
            if bool_decide (type = str "terminate") then None
            else match funcs !! type with
                 | Some h => Some (type, data, h, advance c r' w)
                 | None => None
                 end
          | _ => None
          end
        | Raise _ => None
        end
      | Raise _ => None
      end
    | _ => None
    end
  else None.

(** A frame the loop drops: bytes that are not ASCII, a text that does
    not parse, a value without a [type] to look up, a type that is no
    string, or a string other than "terminate" that the registry does
    not hold. *)
Definition dropped (chunk : bytes) : bool :=
  match decode_ascii chunk with
  | Raise _ => true
  | Ok text =>
    match json_loads text with
    | Raise _ => true
    | Ok data =>
      match getitem data (str "type") with
      | Raise _ => true
      | Ok (PStr type) =>
        negb (bool_decide (type = str "terminate"))
        && match funcs !! type with None => true | Some _ => false end
      | Ok _ => true
      end
    end
  end.

(** [while self.__alive: ...] *)
Fixpoint while_alive (fuel : nat) (c : nat) : M loop_end :=
  match fuel with
  | O => mret OutOfFuel
  | S fuel' =>
    s ← iteration c;
    match s with
    | Next => while_alive fuel' c
    | Wait => mret Waiting
    | Break => mret Exited
    end
  end.

Definition set_task (c : nat) (t : task_state) : M unit :=
  set_conn c (fun cn => mkConn (reader cn) (submitted cn)
                               (_connection_lost cn) t).

(** What becomes of the task of [c] when the loop, entered in world
    [w], is left: it has returned, it waits in [readuntil], the event
    loop has gone down under the callback it awaits, or an exception
    has reached the [except] clause of line 116. An exception the
    clause does not handle, or one that evaluating the clause raises,
    leaves [handle_connection]: the task has failed with it. *)
Definition conclude (c : nat) (w : World) (end_ : result loop_end * World)
  : result unit * World :=
  match end_ with
  | (Ok Exited, w') => set_task c Finished w'
  | (Ok Waiting, w') => set_task c Suspended w'
  | (Ok OutOfFuel, w') => set_task c Diverged w'
  | (Raise e, w') =>
    if bool_decide (aborts w' = aborts w)
    then match except_116 e with
         | Ok true => (set_writer None;; set_task c Finished) w'
         | Ok false => set_task c (Failed e) w'
         | Raise e' => set_task c (Failed e') w'
         end
    else set_task c Abandoned w'
  end.

(** The loop inside the outer [try] (lines 86-118) from the loop test,
    run until the task suspends or ends. Every pass that goes on takes a
    frame off the buffer, so one more pass than the buffer has bytes is
    enough. *)
Definition run_loop (c : nat) : M unit := fun w =>
  let fuel := S (length (_buffer (reader (conns w c)))) in
  conclude c w (while_alive fuel c w).

(** Lines 91-114: a pass from the point where the task waits, inside
    [readuntil]. *)
Definition resume_read (c : nat) : M step :=
  got ← read_frame c;
  match got with
  | None => mret Wait
  | Some data =>
    match decode_ascii data with
    | Raise UnicodeDecodeError => mret Next
    | Raise e => raise e
    | Ok text => dispatch text;; mret Next
    end
  end.

(** The task of [c], suspended in [readuntil] (line 91), is woken up:
    the call goes on where it was, and the loop test comes only after
    the frame it returns has been handled. *)
Definition resume (c : nat) : M unit := fun w =>
  let fuel := S (length (_buffer (reader (conns w c)))) in
  conclude c w
    match resume_read c w with
    | (Ok Next, w') => while_alive fuel c w'
    | (Ok Wait, w') => (Ok Waiting, w')
    | (Ok Break, w') => (Ok Exited, w')
    | (Raise e, w') => (Raise e, w')
    end.

(** [handle_connection(reader, writer)] from its first line, for the
    reader and writer of connection [c]. *)
Definition handle_connection (c : nat) : M unit :=
  set_writer (Some c);;
  run_loop c.

(** *** The environment

    What the event loop and the network do to the server: a connection
    is accepted and its task started, bytes arrive, the peer closes, the
    connection breaks, a suspended task is woken up. A task runs until
    it suspends or ends; the tasks take turns at these points only. *)
Inductive action :=
| Connect (c : nat)
| DataReceived (c : nat) (data : bytes)
| EofReceived (c : nat)
| ConnectionLost (c : nat) (exc : option exn)
| Wakeup (c : nat).

Definition set_reader (c : nat) (f : StreamReader -> StreamReader) : M unit :=
  set_conn c (fun cn => mkConn (f (reader cn)) (submitted cn)
                               (_connection_lost cn) (task cn)).

(** [reader.feed_data(data)], [reader.feed_eof()],
    [reader.set_exception(exc)]. *)
Definition feed_data (c : nat) (data : bytes) : M unit :=
  set_reader c (fun r => mkReader (_buffer r ++ data) (_eof r)
                                  (_exception r) (_limit r)).

Definition feed_eof (c : nat) : M unit :=
  set_reader c (fun r => mkReader (_buffer r) true (_exception r) (_limit r)).

Definition set_exception (c : nat) (exc : exn) : M unit :=
  set_reader c (fun r => mkReader (_buffer r) (_eof r) (Some exc) (_limit r)).

(** [StreamReaderProtocol.connection_lost(exc)]. *)
Definition connection_lost (c : nat) (exc : option exn) : M unit :=
  match exc with
  | None => feed_eof c
  | Some e => set_exception c e
  end;;
  set_conn c (fun cn => mkConn (reader cn) (submitted cn) true (task cn)).

Definition act (a : action) (w : World) : World :=
  match a with
  | Connect c =>
    match task (conns w c) with
    | NotStarted => (handle_connection c w).2
    | _ => w
    end
  | DataReceived c data => (feed_data c data w).2
  | EofReceived c => (feed_eof c w).2
  | ConnectionLost c exc => (connection_lost c exc w).2
  | Wakeup c =>
    match task (conns w c) with
    | Suspended => (resume c w).2
    | _ => w
    end
  end.

Definition run (acts : list action) (w : World) : World :=
  foldl (fun w a => act a w) w acts.


End Server.

(** The server after [AServer(port)] and [start()]. *)
Definition started (port : Z) : World := (start (__init__ port)).2.

(** The world after an exception has left [handle_connection] on
    connection [c]. *)
Definition failed (c : nat) (e : exn) (w : World) : World :=
  (set_task c (Failed e) w).2.

(** A server that is started and has accepted connection 0, which waits
    for its first frame. *)
Definition serving : World :=
  run json.loads ∅ [Connect 0%nat] (started 8080).

(** The same after connection 0 has broken, before its task runs again. *)
Definition broken : World :=
  run json.loads ∅ [ConnectionLost 0%nat (Some ConnectionResetError)] serving.

(** The registry of the examples: the callback for "ping" answers, the
    one for "nap" sleeps for ten seconds, the one for "fail" raises; a
    callback is registered for "terminate" as well. *)
Definition pong : handler :=
  fun _ => AwaitWrite (str "pong") (fun _ => Return).

Definition registry : gmap pystr handler :=
  {[ str "ping" := pong;
     str "nap" := (fun _ => Sleep 10 Return);
     str "fail" := (fun _ => Throw (UserError (str "ValueError")));
     str "terminate" := pong ]}.

(** Callbacks that do not end when they are told to. The first catches
    its cancellation and cleans up for ten seconds. The second answers
    on a transport that stays paused for ten seconds, then sleeps for
    ten more and reports. The third calls [exit()]. *)
Definition cleanup : handler :=
  fun _ => SleepTry 10 Return (Sleep 10 Return).

Definition report : handler :=
  fun _ => StalledWrite (str "pong") 10
             (fun _ => Sleep 10 (AwaitWrite (str "done") (fun _ => Return))).

Definition quit : handler :=
  fun _ => Throw SystemExit.

Definition unruly : gmap pystr handler :=
  {[ str "cleanup" := cleanup;
     str "report" := report;
     str "quit" := quit ]}.

(** Connection 0 of [serving] after a frame has arrived. *)
Definition received (frame : pystr) : World :=
  run json.loads registry [DataReceived 0%nat (frame ++ CRLF)] serving.


(** ** Measures of a run *)

Definition is_invoke (e : event) : bool :=
  match e with
  | EvInvoke _ _ => true
  | _ => false
  end.

(** How many times a request callback was called in a trace. *)
Definition invocations (t : list event) : nat :=
  length (List.filter is_invoke t).

(** The reader holds more than the limit allows before the next
    delimiter, or without one. *)
Definition over_limit (r : StreamReader) : Prop :=
  _exception r = None
  /\ ((exists i, find CRLF (_buffer r) = Some i /\ _limit r < N.of_nat i)
      \/ (find CRLF (_buffer r) = None
          /\ _limit r + 1 < N.of_nat (length (_buffer r)))).

(** * Properties *)

(** ** Escaping and encoding *)

Lemma replace_app old new s t :
  replace old new (s ++ t) = replace old new s ++ replace old new t.
Proof. unfold replace. apply flat_map_app. Qed.

Lemma replace_absent old new s :
  old ∉ s -> replace old new s = s.
Proof.
  induction s as [|c s IH]; intros Hn; [done|].
  apply not_elem_of_cons in Hn as [Hc Hs].
  unfold replace in *. simpl. rewrite (IH Hs).
  destruct (N.eqb_spec c old); [congruence | done].
Qed.

(** No byte of the encoding of another character is the byte of '%'. *)
Lemma encode_char_percent c bs :
  encode_char c = Some bs -> c <> PERCENT -> PERCENT ∉ bs.
Proof.
  unfold encode_char, PERCENT. intros H Hc.
  repeat match type of H with
         | context [if ?b then _ else _] => destruct b eqn:?
         end; inversion H; subst; clear H;
    repeat (apply not_elem_of_cons; split); try apply not_elem_of_nil;
    repeat match goal with
           | |- context [N.modulo ?a ?b] => generalize (N.modulo a b); intro
           | |- context [N.div ?a ?b] => generalize (N.div a b); intro
           end; lia.
Qed.

Lemma encode_app s t x y :
  encode s = Ok x -> encode t = Ok y -> encode (s ++ t) = Ok (x ++ y).
Proof.
  revert x. induction s as [|c s IH]; intros x Hs Ht; simpl in *.
  - by inversion Hs.
  - destruct (encode_char c) as [bs|]; [|done].
    destruct (encode s) as [rest|]; [|done].
    inversion Hs; subst. rewrite (IH _ eq_refl Ht). by rewrite app_assoc.
Qed.

Lemma replace_cons old new c s :
  replace old new (c :: s)
  = (if c =? old then new else [c]) ++ replace old new s.
Proof. done. Qed.

Lemma encode_replace_percent message data :
  encode message = Ok data ->
  encode (replace PERCENT (str "%%") message)
  = Ok (replace PERCENT [PERCENT; PERCENT] data).
Proof.
  revert data. induction message as [|c s IH]; intros data H.
  - by inversion H.
  - cbn [encode] in H.
    destruct (encode_char c) as [bs|] eqn:Hc; [|done].
    destruct (encode s) as [rest|] eqn:Hs; [|done].
    inversion H; subst; clear H.
    rewrite replace_cons, replace_app.
    apply encode_app; [|by apply IH].
    destruct (N.eqb_spec c PERCENT) as [->|Hne].
    + vm_compute in Hc. by inversion Hc.
    + rewrite (replace_absent _ _ bs (encode_char_percent _ _ Hc Hne)).
      cbn [encode]. rewrite Hc. by rewrite app_nil_r.
Qed.

Lemma count_replace_percent (data : bytes) :
  count_occ N.eq_dec (replace PERCENT [PERCENT; PERCENT] data) PERCENT
  = (2 * count_occ N.eq_dec data PERCENT)%nat.
Proof.
  induction data as [|b data IH]; [done|].
  rewrite replace_cons, count_occ_app, IH.
  destruct (N.eqb_spec b PERCENT) as [->|Hne]; simpl.
  - destruct (N.eq_dec PERCENT PERCENT); [lia | done].
  - destruct (N.eq_dec b PERCENT); [done | lia].
Qed.

(** ** [write] *)

Lemma submit_self c data w : self (submit c data w) = self w.
Proof. done. Qed.

Lemma submit_submitted c data w :
  submitted (conns (submit c data w) c) = submitted (conns w c) ++ data.
Proof. cbn. by rewrite fn_lookup_insert. Qed.


Lemma write_detached message w :
  __writer (self w) = None -> write message w = (Ok false, w).
Proof. intros H. unfold write, mbind, M_bind, gets. by rewrite H. Qed.

Lemma write_unencodable message c e w :
  __writer (self w) = Some c ->
  encode (replace PERCENT (str "%%") message) = Raise e ->
  write message w = (Raise e, w).
Proof.
  intros H He. unfold write, mbind, M_bind, gets, lift. by rewrite H, He.
Qed.

Lemma write_attached message c data w :
  __writer (self w) = Some c ->
  encode (replace PERCENT (str "%%") message) = Ok data ->
  write message w = (Ok (negb (drain_fails w c)), submit c data w).
Proof.
  intros H He.
  unfold write, mbind, M_bind, gets, lift. rewrite H, He.
  unfold attempt, drain, drain_fails, submit, mbind, M_bind, gets, raise, mret,
    M_ret.
  cbn. rewrite fn_lookup_insert. cbn.
  destruct (_exception (reader (conns w c))); [done|].
  by destruct (_connection_lost (conns w c)).
Qed.

Lemma encode_percent_absent message data :
  encode message = Ok data -> PERCENT ∉ message -> PERCENT ∉ data.
Proof.
  revert data. induction message as [|c s IH]; intros data H Hn.
  - inversion H. apply not_elem_of_nil.
  - cbn [encode] in H.
    destruct (encode_char c) as [bs|] eqn:Hc; [|done].
    destruct (encode s) as [rest|] eqn:Hs; [|done].
    inversion H; subst; clear H.
    apply not_elem_of_cons in Hn as [Hne Hs'].
    apply not_elem_of_app. split; [|by apply IH].
    apply (encode_char_percent c); [done | congruence].
Qed.

Lemma encode_char_encodable c :
  encodable c = true -> exists bs, encode_char c = Some bs /\ bs <> [].
Proof.
  unfold encodable, encode_char. intros H.
  repeat match goal with
         | |- context [if ?b then _ else _] => destruct b eqn:?
         end; try (eexists; split; [reflexivity | discriminate]);
    rewrite ?orb_true_iff, ?andb_true_iff, ?andb_false_iff, ?N.ltb_lt,
      ?N.ltb_ge, ?N.leb_le, ?N.leb_gt in *; lia.
Qed.

Lemma encode_encodable message :
  forallb encodable message = true ->
  exists data, encode message = Ok data /\ (message <> [] -> data <> []).
Proof.
  induction message as [|c s IH]; intros H.
  - by exists [].
  - cbn [forallb] in H. apply andb_prop in H as [Hc Hs].
    destruct (encode_char_encodable c Hc) as (bs & Hbs & Hne).
    destruct (IH Hs) as (rest & Hrest & _).
    exists (bs ++ rest). cbn [encode]. rewrite Hbs, Hrest. split; [done|].
    intros _ Happ. by apply app_eq_nil in Happ as [? _].
Qed.

Lemma replace_encodable message :
  forallb encodable message = true ->
  forallb encodable (replace PERCENT (str "%%") message) = true.
Proof.
  induction message as [|c s IH]; intros H; [done|].
  cbn [forallb] in H. apply andb_prop in H as [Hc Hs].
  rewrite replace_cons, forallb_app, (IH Hs), andb_true_r.
  destruct (c =? PERCENT); [done|]. cbn [forallb]. by rewrite Hc.
Qed.

(** C1, as the claim has it, fails: [write("100% done")] on an attached
    writer hands the writer the bytes of "100%% done", with each '%'
    twice; the client does not get "100% done". *)
Lemma write_100_percent_done_doubled :
  __writer (self serving) = Some 0%nat /\
  (write (str "100% done") serving).1 = Ok true /\
  submitted (conns (write (str "100% done") serving).2 0%nat)
    = str "100%% done" /\
  submitted (conns (write (str "100% done") serving).2 0%nat)
    <> str "100% done".
Proof. vm_compute. repeat split; discriminate. Qed.

(** C1, amended: with a writer attached, the bytes [write] hands to the
    writer are the UTF-8 encoding of the message with every '%' byte
    doubled and nothing else changed: each '%' of the message arrives
    twice, and a message without '%' arrives as it is. *)
Theorem write_delivers_escaped message data c w :
  __writer (self w) = Some c ->
  encode message = Ok data ->
  let sent := replace PERCENT [PERCENT; PERCENT] data in
  submitted (conns (write message w).2 c) = submitted (conns w c) ++ sent
  /\ count_occ N.eq_dec sent PERCENT
     = (2 * count_occ N.eq_dec data PERCENT)%nat
  /\ (PERCENT ∉ message -> sent = data).
Proof.
  intros Hw He sent.
  rewrite (write_attached _ _ _ _ Hw (encode_replace_percent _ _ He)).
  cbn [snd]. rewrite submit_submitted. split; [done|]. split.
  - apply count_replace_percent.
  - intros Hn. apply replace_absent. by apply (encode_percent_absent message).
Qed.

Lemma write_delivers_escaped_witness :
  submitted (conns (write (str "50% of 100%") serving).2 0%nat)
    = submitted (conns serving 0%nat)
      ++ replace PERCENT [PERCENT; PERCENT] (str "50% of 100%")
  /\ count_occ N.eq_dec
       (replace PERCENT [PERCENT; PERCENT] (str "50% of 100%")) PERCENT
     = (2 * count_occ N.eq_dec (str "50% of 100%") PERCENT)%nat
  /\ (PERCENT ∉ str "50% of 100%" ->
      replace PERCENT [PERCENT; PERCENT] (str "50% of 100%")
      = str "50% of 100%").
Proof.
  apply (write_delivers_escaped (str "50% of 100%") (str "50% of 100%")
           0%nat serving); reflexivity.
Defined.

(** C3, as the claim has it, fails: a message with a lone surrogate (the
    string "\ud800", which [json.loads] itself can produce) makes
    [message.encode()] raise [UnicodeEncodeError], outside the [try]. *)
Lemma write_lone_surrogate_raises :
  __writer (self serving) = Some 0%nat /\
  (write [0xD800] serving).1 = Raise UnicodeEncodeError.
Proof. vm_compute. by split. Qed.

(** C3, amended: for every message without surrogate code points [write]
    does not raise. Without a writer it returns [False] and leaves the
    world as it is; with a writer it returns [False] when [drain] fails
    and [True] otherwise. *)
Theorem write_returns message w :
  forallb encodable message = true ->
  match __writer (self w) with
  | None => write message w = (Ok false, w)
  | Some c =>
    exists data,
      encode (replace PERCENT (str "%%") message) = Ok data /\
      write message w = (Ok (negb (drain_fails w c)), submit c data w)
  end.
Proof.
  intros Henc. destruct (__writer (self w)) as [c|] eqn:Hw.
  - destruct (encode_encodable _ (replace_encodable _ Henc)) as (data & Hd & _).
    exists data. split; [done|]. by apply write_attached.
  - by apply write_detached.
Qed.

Lemma write_returns_witness :
  forallb encodable (str "100% done") = true /\
  (exists data,
      encode (replace PERCENT (str "%%") (str "100% done")) = Ok data /\
      write (str "100% done") broken
      = (Ok (negb (drain_fails broken 0%nat)), submit 0%nat data broken)).
Proof.
  split; [reflexivity|].
  apply (write_returns (str "100% done") broken). reflexivity.
Defined.

(** C9: when [drain] fails, [write] returns [False] although the encoded
    message has already been handed to the writer (the bytes are in
    [submitted], and there are some unless the message is empty); only
    without a writer does [False] come with an unchanged world. *)
Theorem write_false_after_submit message c w :
  __writer (self w) = Some c ->
  forallb encodable message = true ->
  drain_fails w c = true ->
  (exists data w',
      write message w = (Ok false, w') /\
      submitted (conns w' c) = submitted (conns w c) ++ data /\
      encode (replace PERCENT (str "%%") message) = Ok data /\
      (message <> [] -> data <> []))
  /\ (forall w0, __writer (self w0) = None ->
                 write message w0 = (Ok false, w0)).
Proof.
  intros Hw Henc Hd. split; [|intros; by apply write_detached].
  destruct (encode_encodable _ (replace_encodable _ Henc))
    as (data & Hdata & Hne).
  exists data, (submit c data w).
  rewrite (write_attached _ _ _ _ Hw Hdata), Hd, submit_submitted.
  repeat split; [done|]. intros Hm. apply Hne.
  destruct message as [|x s]; [done|]. rewrite replace_cons.
  by destruct (x =? PERCENT).
Qed.

Lemma write_false_after_submit_witness :
  (exists data w',
      write (str "pong") broken = (Ok false, w') /\
      submitted (conns w' 0%nat) = submitted (conns broken 0%nat) ++ data /\
      encode (replace PERCENT (str "%%") (str "pong")) = Ok data /\
      (str "pong" <> [] -> data <> []))
  /\ (forall w0, __writer (self w0) = None ->
                 write (str "pong") w0 = (Ok false, w0)).
Proof.
  apply (write_false_after_submit (str "pong") 0%nat broken); reflexivity.
Defined.

(** ** The frame reader *)

Lemma starts_with_app sep buf :
  starts_with sep buf = true -> buf = sep ++ drop (length sep) buf.
Proof.
  revert buf. induction sep as [|x sep IH]; intros [|y buf] H; try done.
  cbn in H. apply andb_prop in H as [Hx Hs].
  apply N.eqb_eq in Hx as ->. cbn. f_equal. by apply IH.
Qed.

Lemma starts_with_prefix sep rest :
  starts_with sep (sep ++ rest) = true.
Proof.
  induction sep as [|x sep IH]; [done|]. cbn. by rewrite N.eqb_refl, IH.
Qed.

Lemma starts_with_take sep buf n :
  starts_with sep (take n buf) = true -> starts_with sep buf = true.
Proof.
  revert buf n. induction sep as [|x sep IH]; intros [|y buf] [|n] H; try done.
  cbn in *. apply andb_prop in H as [-> Hs]. by rewrite (IH _ _ Hs).
Qed.

Lemma find_Some_split sep buf i :
  find sep buf = Some i ->
  buf = take i buf ++ sep ++ drop (i + length sep) buf.
Proof.
  revert i. induction buf as [|y buf IH]; intros i H.
  - cbn in H. destruct (starts_with sep []) eqn:Hs; [|done].
    inversion H; subst. by apply starts_with_app in Hs.
  - cbn [find] in H. destruct (starts_with sep (y :: buf)) eqn:Hs.
    + inversion H; subst. by apply starts_with_app in Hs.
    + destruct (find sep buf) as [j|]; [|done]. inversion H; subst.
      cbn. f_equal. by apply IH.
Qed.

Lemma starts_with_length sep buf :
  starts_with sep buf = true -> (length sep <= length buf)%nat.
Proof.
  intros H. apply starts_with_app in H. apply (f_equal length) in H.
  rewrite length_app in H. lia.
Qed.

Lemma find_Some_length sep buf i :
  find sep buf = Some i -> (i + length sep <= length buf)%nat.
Proof.
  revert i. induction buf as [|y buf IH]; intros i H.
  - cbn in H. destruct (starts_with sep []) eqn:Hs; [|done].
    inversion H; subst. by apply starts_with_length in Hs.
  - cbn [find] in H. destruct (starts_with sep (y :: buf)) eqn:Hs.
    + inversion H; subst. by apply starts_with_length in Hs.
    + destruct (find sep buf) as [j|]; [|done]. inversion H; subst.
      specialize (IH j eq_refl). cbn. lia.
Qed.

(** The chunk cut at the first separator holds it at its end and nowhere
    before. *)
Lemma find_take sep buf i :
  find sep buf = Some i ->
  take (i + length sep) buf = take i buf ++ sep
  /\ length (take i buf) = i
  /\ find sep (take i buf ++ sep) = Some i.
Proof.
  intros H. pose proof (find_Some_length _ _ _ H) as Hlen.
  pose proof (find_Some_split _ _ _ H) as Hsplit.
  assert (Hi : length (take i buf) = i) by (rewrite length_take; lia).
  assert (Ht : take (i + length sep) buf = take i buf ++ sep).
  { rewrite Hsplit at 1. rewrite take_app_add'; [|done].
    by rewrite take_app_length. }
  repeat split; try done.
  rewrite <- Ht. clear Hsplit Hi Ht. revert i H Hlen.
  induction buf as [|y buf IH]; intros i H Hlen.
  - cbn in H. destruct (starts_with sep []) eqn:Hs; [|done].
    inversion H; subst. rewrite take_nil. cbn. by rewrite Hs.
  - cbn [find] in H. destruct (starts_with sep (y :: buf)) eqn:Hs.
    + inversion H; subst. apply starts_with_app in Hs.
      rewrite Hs. cbn [Nat.add]. rewrite take_app_length.
      pose proof (starts_with_prefix sep []) as Hp.
      rewrite app_nil_r in Hp. destruct sep; [done|].
      cbn [find]. by rewrite Hp.
    + destruct (find sep buf) as [j|] eqn:Hj; [|done]. inversion H; subst.
      cbn in Hlen. cbn [Nat.add take find].
      destruct (starts_with sep (y :: take (j + length sep) buf)) eqn:Hs'.
      * apply (starts_with_take sep (y :: buf) (S (j + length sep))) in Hs'.
        congruence.
      * rewrite (IH j eq_refl); [done | lia].
Qed.

Lemma count_sep_find_None buf :
  find CRLF buf = None -> count_sep CRLF buf = 0%nat.
Proof.
  induction buf as [|y buf IH]; intros H; [done|].
  cbn [find] in H. cbn [count_sep].
  destruct (starts_with CRLF (y :: buf)); [done|].
  destruct (find CRLF buf); [done|]. by rewrite IH.
Qed.

Lemma count_sep_find_Some buf i :
  find CRLF buf = Some i ->
  count_sep CRLF buf = S (count_sep CRLF (drop (i + 2) buf)).
Proof.
  revert i. induction buf as [|y buf IH]; intros i H; [done|].
  cbn [find] in H. cbn [count_sep].
  destruct (starts_with CRLF (y :: buf)) eqn:Hs.
  - inversion H; subst. destruct buf as [|z rest].
    + unfold CRLF in Hs. cbn [starts_with] in Hs.
      by rewrite andb_false_r in Hs.
    + unfold CRLF in Hs. cbn [starts_with] in Hs.
      rewrite andb_true_r in Hs. apply andb_prop in Hs as [_ Hz].
      apply N.eqb_eq in Hz. subst z. cbn [Nat.add drop].
      destruct rest; done.
  - destruct (find CRLF buf) as [j|]; [|done]. inversion H; subst.
    by rewrite (IH j eq_refl).
Qed.

Lemma readuntil_chunk r i :
  _exception r = None ->
  find CRLF (_buffer r) = Some i ->
  N.of_nat i <= _limit r ->
  readuntil CRLF r = (RChunk (take (i + 2) (_buffer r)), consume (i + 2) r).
Proof.
  intros He Hf Hl. unfold readuntil. rewrite He.
  pose proof (find_Some_length _ _ _ Hf) as Hlen. cbn [length CRLF] in *.
  rewrite bool_decide_eq_true_2 by lia. rewrite Hf.
  destruct (N.ltb_spec (_limit r) (N.of_nat i)); [lia|].
  unfold consume. by rewrite He.
Qed.

Lemma readuntil_over r i :
  _exception r = None ->
  find CRLF (_buffer r) = Some i ->
  _limit r < N.of_nat i ->
  readuntil CRLF r = (RRaise LimitOverrunError, r).
Proof.
  intros He Hf Hl. unfold readuntil. rewrite He.
  pose proof (find_Some_length _ _ _ Hf) as Hlen. cbn [length CRLF] in *.
  rewrite bool_decide_eq_true_2 by lia. rewrite Hf.
  by destruct (N.ltb_spec (_limit r) (N.of_nat i)); [|lia].
Qed.

(** Without a complete separator in the buffer no chunk is returned: the
    call waits, or raises at the end of the stream or over the limit. *)
Lemma readuntil_no_separator r :
  find CRLF (_buffer r) = None ->
  forall chunk r', readuntil CRLF r <> (RChunk chunk, r').
Proof.
  intros Hf chunk r'. unfold readuntil.
  destruct (_exception r); [done|]. rewrite Hf.
  destruct (bool_decide _); cbn [andb];
    repeat match goal with
           | |- context [if ?b then _ else _] => destruct b
           end; done.
Qed.

Lemma read_frames_spec fuel r :
  _exception r = None ->
  (length (_buffer r) <= fuel)%nat ->
  let (fs, r') := read_frames fuel r in
  concat fs ++ _buffer r' = _buffer r
  /\ Forall (fun f => exists body,
                 f = body ++ CRLF /\ find CRLF f = Some (length body)
                 /\ N.of_nat (length body) <= _limit r) fs
  /\ (length fs + count_sep CRLF (_buffer r') = count_sep CRLF (_buffer r))%nat
  /\ match find CRLF (_buffer r') with
     | None => True
     | Some i => _limit r < N.of_nat i
     end
  /\ (find CRLF (_buffer r) = None -> fs = []).
Proof.
  revert r. induction fuel as [|fuel IH]; intros r He Hlen.
  - cbn. destruct (_buffer r) eqn:Hb; [|cbn in Hlen; lia].
    repeat split; done.
  - cbn [read_frames].
    destruct (find CRLF (_buffer r)) as [i|] eqn:Hf.
    + destruct (N.ltb_spec (_limit r) (N.of_nat i)) as [Hover|Hfit].
      * rewrite (readuntil_over r i He Hf Hover). rewrite Hf.
        repeat split; done.
      * rewrite (readuntil_chunk r i He Hf Hfit).
        pose proof (find_Some_length _ _ _ Hf) as Hl. cbn [length CRLF] in Hl.
        specialize (IH (consume (i + 2) r) He).
        cbn [consume _buffer _limit] in IH. rewrite length_drop in IH.
        specialize (IH ltac:(lia)).
        destruct (read_frames fuel (consume (i + 2) r)) as [fs r''].
        destruct IH as (Hcat & Hall & Hcount & Hrest & _).
        destruct (find_take _ _ _ Hf) as (Ht & Hi & Hfirst).
        cbn [length CRLF] in Ht.
        repeat split.
        -- cbn [concat]. rewrite <- app_assoc, Hcat. apply take_drop.
        -- constructor; [|done]. exists (take i (_buffer r)).
           rewrite Ht, Hi. by repeat split.
        -- rewrite (count_sep_find_Some _ _ Hf). cbn [length]. lia.
        -- done.
        -- done.
    + destruct (readuntil CRLF r) as [[chunk| |] r'] eqn:Hr.
      * by apply readuntil_no_separator in Hr.
      * rewrite Hf. repeat split; done.
      * rewrite Hf. repeat split; done.
Qed.

(** C4, as the claim has it, fails: the frame read from the stream
    "a\r\n" is "a\r\n", delimiter included, and that is the text decoded
    and handed on; it is not "a". *)
Lemma readuntil_keeps_delimiter :
  let r := mkReader (str "a" ++ CRLF) false None _DEFAULT_LIMIT in
  (readuntil CRLF r).1 = RChunk (str "a" ++ CRLF)
  /\ decode_ascii (str "a" ++ CRLF) = Ok (str "a" ++ CRLF)
  /\ (readuntil CRLF r).1 <> RChunk (str "a").
Proof. vm_compute. repeat split; discriminate. Qed.

(** C4, amended: for every byte stream the frame reader yields one frame
    per CR LF, each frame being the bytes up to and including the
    delimiter (the delimiter is its end and occurs nowhere before), the
    frames in a row being the stream itself; no frame is yielded without
    a complete delimiter; and the reader stops short only of a frame
    whose text is longer than the limit of the stream. *)
Theorem frames_delimited r :
  _exception r = None ->
  let (fs, r') := frames r in
  concat fs ++ _buffer r' = _buffer r
  /\ Forall (fun f => exists body,
                 f = body ++ CRLF /\ find CRLF f = Some (length body)
                 /\ N.of_nat (length body) <= _limit r) fs
  /\ (length fs + count_sep CRLF (_buffer r') = count_sep CRLF (_buffer r))%nat
  /\ match find CRLF (_buffer r') with
     | None => True
     | Some i => _limit r < N.of_nat i
     end
  /\ (find CRLF (_buffer r) = None -> fs = []).
Proof. intros He. by apply read_frames_spec. Qed.

Lemma frames_delimited_witness :
  let r := mkReader (str "a" ++ CRLF ++ str "bc" ++ CRLF ++ str "d")
                    false None _DEFAULT_LIMIT in
  exists fs r',
    frames r = (fs, r')
    /\ concat fs ++ _buffer r' = _buffer r
    /\ (length fs + count_sep CRLF (_buffer r') = count_sep CRLF (_buffer r))%nat.
Proof.
  intros r. pose proof (frames_delimited r eq_refl) as H.
  destruct (frames r) as [fs r']. exists fs, r'.
  destruct H as (H1 & _ & H3 & _). by repeat split.
Defined.

(** ** What a request callback can change *)

Lemma same_server_refl w : same_server w w.
Proof. by split. Qed.

Lemma same_server_trans w1 w2 w3 :
  same_server w1 w2 -> same_server w2 w3 -> same_server w1 w3.
Proof.
  intros [Hs1 Hc1] [Hs2 Hc2]. split; [congruence|]. intros d.
  destruct (Hc1 d) as (? & ? & ?), (Hc2 d) as (? & ? & ?).
  repeat split; congruence.
Qed.

Lemma submit_same_server c data w : same_server w (submit c data w).
Proof.
  split; [done|]. intros d. cbn.
  destruct (decide (c = d)) as [->|Hne].
  - by rewrite fn_lookup_insert.
  - by rewrite fn_lookup_insert_ne.
Qed.

Lemma write_effect message w :
  same_server w (write message w).2
  /\ now (write message w).2 = now w
  /\ trace (write message w).2 = trace w.
Proof.
  destruct (__writer (self w)) as [c|] eqn:Hw.
  - destruct (encode (replace PERCENT (str "%%") message)) as [data|e] eqn:He.
    + rewrite (write_attached _ _ _ _ Hw He). cbn [snd].
      split; [apply submit_same_server | done].
    + rewrite (write_unencodable _ _ _ _ Hw He).
      split; [apply same_server_refl | done].
  - rewrite (write_detached _ _ Hw). split; [apply same_server_refl | done].
Qed.

Lemma clamp_nonneg d : (0 <= clamp d)%Q.
Proof.
  unfold clamp. destruct (Qle_bool d 0) eqn:Hle; [lra|].
  destruct (Qlt_le_dec 0 d) as [?|Hn]; [lra|].
  apply Qle_bool_iff in Hn. congruence.
Qed.

Lemma Qle_bool_false a b : Qle_bool a b = false -> (b < a)%Q.
Proof.
  intros H. destruct (Qlt_le_dec b a) as [?|Hn]; [done|].
  apply Qle_bool_iff in Hn. congruence.
Qed.

(** [write] on a paused transport does what [write] does, and then
    waits, or is cancelled while it waits. *)
Lemma write_paused_cases message stall timeout w :
  (exists e, write message w = (Raise e, w)
             /\ write_paused message stall timeout w = (Raise e, w))
  \/ (exists w1, write message w = (Ok false, w1)
                 /\ write_paused message stall timeout w
                    = (Ok (false, Some 0%Q), w1))
  \/ (exists w1,
        write message w = (Ok true, w1)
        /\ ((write_paused message stall timeout w
             = (Ok (true, Some stall), later stall w1)
             /\ forall t, timeout = Some t -> Qle_bool t stall = false)
            \/ (exists t, timeout = Some t /\ Qle_bool t stall = true
                          /\ write_paused message stall timeout w
                             = (Ok (false, None), cancelled (later t w1))))).
Proof.
  unfold write_paused, write, mbind, M_bind, gets.
  destruct (__writer (self w)) as [c|] eqn:Hw;
    [|right; left; by exists w].
  unfold lift.
  destruct (encode (replace PERCENT (str "%%") message)) as [data|e] eqn:He;
    [|left; by exists e].
  destruct (writer_write c data w) as [[[]|e] w1] eqn:Hww;
    [|by inversion Hww].
  destruct (attempt (drain c) w1) as [[[[]|e]|e] w2] eqn:Hd;
    unfold attempt in Hd; destruct (drain c w1) as [rd wd] eqn:Hdr;
    inversion Hd; subst; clear Hd.
  - assert (w2 = w1) as ->.
    { unfold drain, mbind, M_bind, gets, raise, mret, M_ret in Hdr.
      destruct (_exception _); [by inversion Hdr|].
      destruct (_connection_lost _); by inversion Hdr. }
    right. right. exists w1. split; [done|].
    destruct timeout as [t|]; [|left; by split].
    destruct (Qle_bool t stall) eqn:Hle.
    + right. by exists t.
    + left. split; [done|]. intros t' Ht. by inversion Ht; subst.
  - assert (w2 = w1) as ->.
    { unfold drain, mbind, M_bind, gets, raise, mret, M_ret in Hdr.
      destruct (_exception _); [by inversion Hdr|].
      destruct (_connection_lost _); by inversion Hdr. }
    right. left. by exists w1.
Qed.

Lemma after_cancel_snd fut w : (after_cancel fut w).2 = (finish fut w).2.
Proof.
  unfold after_cancel. destruct (finish fut w) as [[u|e] w']; [done|].
  by destruct e.
Qed.

Lemma wait_for_Sleep delay k timeout w :
  wait_for (Sleep delay k) timeout w
  = if Qle_bool timeout (clamp delay)
    then (Raise TimeoutError, cancelled (later timeout w))
    else wait_for k (timeout - clamp delay)%Q (later (clamp delay) w).
Proof.
  cbn [wait_for]. cbv zeta.
  destruct (Qle_bool timeout (clamp delay)); done.
Qed.

Lemma wait_for_SleepTry delay k h timeout w :
  wait_for (SleepTry delay k h) timeout w
  = if Qle_bool timeout (clamp delay)
    then after_cancel h (cancelled (later timeout w))
    else wait_for k (timeout - clamp delay)%Q (later (clamp delay) w).
Proof.
  cbn [wait_for]. cbv zeta.
  destruct (Qle_bool timeout (clamp delay)); done.
Qed.

Lemma wait_for_AwaitWrite message k timeout w :
  wait_for (AwaitWrite message k) timeout w
  = wait_for (k (write message w).1) timeout (write message w).2.
Proof.
  cbn [wait_for]. unfold mbind, M_bind, attempt.
  by destruct (write message w).
Qed.

Lemma wait_for_StalledWrite message stall k timeout w :
  wait_for (StalledWrite message stall k) timeout w
  = match write_paused message (clamp stall) (Some timeout) w with
    | (Ok (b, Some spent), w') => wait_for (k (Ok b)) (timeout - spent)%Q w'
    | (Ok (b, None), w') => after_cancel (k (Ok b)) w'
    | (Raise e, w') => wait_for (k (Raise e)) timeout w'
    end.
Proof.
  cbn [wait_for]. unfold mbind, M_bind, attempt.
  by destruct (write_paused _ _ _ w) as [[[b [spent|]]|e] w'].
Qed.

Lemma finish_Sleep delay k w :
  finish (Sleep delay k) w = finish k (later (clamp delay) w).
Proof. done. Qed.

Lemma finish_SleepTry delay k h w :
  finish (SleepTry delay k h) w = finish k (later (clamp delay) w).
Proof. done. Qed.

Lemma finish_AwaitWrite message k w :
  finish (AwaitWrite message k) w
  = finish (k (write message w).1) (write message w).2.
Proof.
  cbn [finish]. unfold mbind, M_bind, attempt.
  by destruct (write message w).
Qed.

Lemma finish_StalledWrite message stall k w :
  finish (StalledWrite message stall k) w
  = match write_paused message (clamp stall) None w with
    | (Ok (b, _), w') => finish (k (Ok b)) w'
    | (Raise e, w') => finish (k (Raise e)) w'
    end.
Proof.
  cbn [finish]. unfold mbind, M_bind, attempt.
  by destruct (write_paused _ _ _ w) as [[[b s]|e] w'].
Qed.

Lemma throw_eq e w :
  throw e w
  = (Raise e, if is_exit e
              then mkWorld (self w) (conns w) (now w) (trace w ++ [EvAbort e])
              else w).
Proof. unfold throw. by destruct (is_exit e). Qed.

Lemma throw_snd e w :
  (throw e w).2 = w
  \/ (throw e w).2 = mkWorld (self w) (conns w) (now w) (trace w ++ [EvAbort e]).
Proof. rewrite throw_eq. destruct (is_exit e); [by right | by left]. Qed.

(** Whatever holds of the steps of a callback (a [write], time going
    by, its cancellation, an exception that leaves the loop) and is
    reflexive and transitive, holds of the callback as a whole, be it
    awaited plainly or under [wait_for]. *)
Section Callbacks.

Variable P : World -> World -> Prop.
Hypothesis P_refl : forall w, P w w.
Hypothesis P_trans : forall w1 w2 w3, P w1 w2 -> P w2 w3 -> P w1 w3.
Hypothesis P_write : forall message w, P w (write message w).2.
Hypothesis P_later : forall d w, (0 <= d)%Q -> P w (later d w).
Hypothesis P_cancelled : forall w, P w (cancelled w).
Hypothesis P_abort : forall e w,
  P w (mkWorld (self w) (conns w) (now w) (trace w ++ [EvAbort e])).

Lemma write_paused_P message stall timeout w :
  (0 <= stall)%Q -> (forall t, timeout = Some t -> (0 <= t)%Q) ->
  P w (write_paused message stall timeout w).2.
Proof.
  intros Hs Ht. pose proof (P_write message w) as Hw.
  destruct (write_paused_cases message stall timeout w)
    as [(e & E1 & ->)|[(w1 & E1 & ->)|(w1 & E1 & [[-> _]|(t & E2 & _ & ->)])]];
    rewrite E1 in Hw; cbn [snd] in *; eauto.
Qed.

Lemma finish_P fut w : P w (finish fut w).2.
Proof.
  revert w.
  induction fut as [|e|delay k IH|message k IH|delay k IH h _|message stall k IH];
    intros w.
  - apply P_refl.
  - cbn [finish]. destruct (throw_snd e w) as [H|H]; rewrite H; auto.
  - rewrite finish_Sleep.
    eapply P_trans; [apply P_later, clamp_nonneg | apply IH].
  - rewrite finish_AwaitWrite. eapply P_trans; [apply P_write | apply IH].
  - rewrite finish_SleepTry.
    eapply P_trans; [apply P_later, clamp_nonneg | apply IH].
  - rewrite finish_StalledWrite.
    pose proof (write_paused_P message (clamp stall) None w
                  (clamp_nonneg stall) ltac:(done)) as Hw.
    destruct (write_paused _ _ _ w) as [[[b s]|e] w']; cbn [snd] in Hw;
      (eapply P_trans; [exact Hw | apply IH]).
Qed.

Lemma wait_for_P fut timeout w :
  (0 < timeout)%Q -> P w (wait_for fut timeout w).2.
Proof.
  revert timeout w.
  induction fut as [|e|delay k IH|message k IH|delay k IH h _|message stall k IH];
    intros timeout w Hpos.
  - apply P_refl.
  - cbn [wait_for]. destruct (throw_snd e w) as [H|H]; rewrite H; auto.
  - rewrite wait_for_Sleep. destruct (Qle_bool timeout _) eqn:Hle.
    + cbn [snd]. eapply P_trans; [apply (P_later timeout); lra | auto].
    + apply Qle_bool_false in Hle.
      eapply P_trans; [apply P_later, clamp_nonneg | apply IH; lra].
  - rewrite wait_for_AwaitWrite.
    eapply P_trans; [apply P_write | by apply IH].
  - rewrite wait_for_SleepTry. destruct (Qle_bool timeout _) eqn:Hle.
    + rewrite after_cancel_snd.
      eapply P_trans; [|apply finish_P].
      eapply P_trans; [apply (P_later timeout); lra | auto].
    + apply Qle_bool_false in Hle.
      eapply P_trans; [apply P_later, clamp_nonneg | apply IH; lra].
  - rewrite wait_for_StalledWrite.
    pose proof (write_paused_P message (clamp stall) (Some timeout) w
                  (clamp_nonneg stall)) as Hw.
    specialize (Hw ltac:(intros t Ht; inversion Ht; subst; lra)).
    pose proof (clamp_nonneg stall) as Hs.
    destruct (write_paused_cases message (clamp stall) (Some timeout) w)
      as [(e & _ & E)|[(w1 & _ & E)|(w1 & _ & [[E Hlt]|(t & _ & _ & E)])]];
      rewrite E in Hw |- *; cbn [snd] in Hw.
    + eapply P_trans; [exact Hw | by apply IH].
    + eapply P_trans; [exact Hw | apply IH; lra].
    + specialize (Hlt timeout eq_refl). apply Qle_bool_false in Hlt.
      eapply P_trans; [exact Hw | apply IH; lra].
    + rewrite after_cancel_snd. eapply P_trans; [exact Hw | apply finish_P].
Qed.

End Callbacks.

(** A callback leaves the server object, the readers and the tasks
    alone. *)
Lemma wait_for_same_server fut timeout w :
  (0 < timeout)%Q -> same_server w (wait_for fut timeout w).2.
Proof.
  apply wait_for_P; try (intros; by split).
  - apply same_server_trans.
  - intros. apply write_effect.
Qed.

(** A callback calls no callback. *)
Lemma wait_for_invocations fut timeout w :
  (0 < timeout)%Q ->
  invocations (trace (wait_for fut timeout w).2) = invocations (trace w).
Proof.
  apply (wait_for_P (fun w w' => invocations (trace w')
                                 = invocations (trace w))); try done.
  - intros w1 w2 w3 H1 H2. congruence.
  - intros message w0. by destruct (write_effect message w0) as (_ & _ & ->).
  - intros w0. cbn. unfold invocations.
    by rewrite List.filter_app, length_app, Nat.add_0_r.
  - intros e w0. cbn. unfold invocations.
    by rewrite List.filter_app, length_app, Nat.add_0_r.
Qed.

(** Time does not go back while a callback runs. *)
Lemma finish_now fut w : (now w <= now (finish fut w).2)%Q.
Proof.
  apply (finish_P (fun w w' => now w <= now w')%Q).
  - intros. lra.
  - intros w1 w2 w3 H1 H2. lra.
  - intros message w0. destruct (write_effect message w0) as (_ & -> & _). lra.
  - intros d w0 Hd. cbn. lra.
  - intros w0. cbn. lra.
  - intros e w0. cbn. lra.
Qed.

(** A callback that is done before the timeout runs under [wait_for]
    as it does without. *)
Lemma wait_for_in_time fut timeout w :
  (now (finish fut w).2 - now w < timeout)%Q ->
  wait_for fut timeout w = finish fut w.
Proof.
  revert timeout w.
  induction fut as [|e|delay k IH|message k IH|delay k IH h _|message stall k IH];
    intros timeout w Hlt.
  - done.
  - done.
  - rewrite wait_for_Sleep, finish_Sleep. rewrite finish_Sleep in Hlt.
    pose proof (finish_now k (later (clamp delay) w)) as Hn. cbn [later now] in Hn.
    destruct (Qle_bool timeout (clamp delay)) eqn:Hle;
      [apply Qle_bool_iff in Hle; lra|].
    apply IH. cbn [later now]. lra.
  - rewrite wait_for_AwaitWrite, finish_AwaitWrite.
    rewrite finish_AwaitWrite in Hlt. apply IH.
    destruct (write_effect message w) as (_ & -> & _). exact Hlt.
  - rewrite wait_for_SleepTry, finish_SleepTry. rewrite finish_SleepTry in Hlt.
    pose proof (finish_now k (later (clamp delay) w)) as Hn. cbn [later now] in Hn.
    destruct (Qle_bool timeout (clamp delay)) eqn:Hle;
      [apply Qle_bool_iff in Hle; lra|].
    apply IH. cbn [later now]. lra.
  - rewrite wait_for_StalledWrite, finish_StalledWrite.
    rewrite finish_StalledWrite in Hlt.
    destruct (write_effect message w) as (_ & Hnw & _).
    destruct (write_paused_cases message (clamp stall) None w)
      as [(e & W1 & E1)|[(w1 & W1 & E1)|(w1 & W1 & [[E1 _]|(t & ? & _)])]];
      [| | |done];
      destruct (write_paused_cases message (clamp stall) (Some timeout) w)
        as [(e' & W2 & E2)|[(w2 & W2 & E2)|(w2 & W2 & [[E2 _]|(t & Et & Hle & E2)])]];
      rewrite W1 in W2; inversion W2; subst; clear W2;
      rewrite E1 in Hlt |- *; rewrite E2; rewrite W1 in Hnw; cbn [snd] in Hnw.
    + by apply IH.
    + apply IH. rewrite Hnw. lra.
    + apply IH.
      pose proof (finish_now (k (Ok true)) (later (clamp stall) w2)) as Hn.
      cbn [later now] in *. rewrite Hnw in *. lra.
    + inversion Et; subst. apply Qle_bool_iff in Hle.
      pose proof (finish_now (k (Ok true)) (later (clamp stall) w2)) as Hn.
      cbn [later now] in *. rewrite Hnw in *. lra.
Qed.

(** A part of a callback that is done before the timeout runs as it
    does without, and leaves the rest of the timeout to what follows. *)
Lemma wait_for_seq pre k timeout w wp :
  finish pre w = (Ok tt, wp) ->
  (now wp - now w < timeout)%Q ->
  exists t, (t == timeout - (now wp - now w))%Q
            /\ wait_for (seq pre k) timeout w = wait_for k t wp.
Proof.
  revert timeout w.
  induction pre as [|e|delay p IH|message p IH|delay p IH h _|message stall p IH];
    intros timeout w Hf Hlt.
  - inversion Hf; subst. exists timeout. split; [lra | done].
  - cbn [finish] in Hf. by rewrite throw_eq in Hf.
  - rewrite finish_Sleep in Hf. cbn [seq]. rewrite wait_for_Sleep.
    pose proof (finish_now p (later (clamp delay) w)) as Hn.
    rewrite Hf in Hn. cbn [later now snd] in Hn.
    destruct (Qle_bool timeout (clamp delay)) eqn:Hle;
      [apply Qle_bool_iff in Hle; lra|].
    destruct (IH (timeout - clamp delay)%Q _ Hf) as (t & Ht & Hw);
      [cbn [later now]; lra|].
    exists t. split; [cbn [later now] in Ht; lra | done].
  - rewrite finish_AwaitWrite in Hf. cbn [seq]. rewrite wait_for_AwaitWrite.
    destruct (write_effect message w) as (_ & Hnw & _).
    destruct (IH _ timeout _ Hf) as (t & Ht & Hw); [rewrite Hnw; lra|].
    exists t. split; [rewrite Hnw in Ht; lra | done].
  - rewrite finish_SleepTry in Hf. cbn [seq]. rewrite wait_for_SleepTry.
    pose proof (finish_now p (later (clamp delay) w)) as Hn.
    rewrite Hf in Hn. cbn [later now snd] in Hn.
    destruct (Qle_bool timeout (clamp delay)) eqn:Hle;
      [apply Qle_bool_iff in Hle; lra|].
    destruct (IH (timeout - clamp delay)%Q _ Hf) as (t & Ht & Hw);
      [cbn [later now]; lra|].
    exists t. split; [cbn [later now] in Ht; lra | done].
  - rewrite finish_StalledWrite in Hf. cbn [seq].
    rewrite wait_for_StalledWrite.
    destruct (write_effect message w) as (_ & Hnw & _).
    destruct (write_paused_cases message (clamp stall) None w)
      as [(e & W1 & E1)|[(w1 & W1 & E1)|(w1 & W1 & [[E1 _]|(t & ? & _)])]];
      [| | |done];
      destruct (write_paused_cases message (clamp stall) (Some timeout) w)
        as [(e' & W2 & E2)|[(w2 & W2 & E2)|(w2 & W2 & [[E2 _]|(t & Et & Hle & E2)])]];
      rewrite W1 in W2; inversion W2; subst; clear W2;
      rewrite E1 in Hf; rewrite E2; rewrite W1 in Hnw; cbn [snd] in Hnw.
    + destruct (IH _ timeout _ Hf) as (t & Ht & Hw); [lra|].
      exists t. split; [lra | done].
    + destruct (IH _ (timeout - 0)%Q _ Hf) as (t & Ht & Hw);
        [rewrite Hnw; lra|].
      exists t. split; [rewrite Hnw in Ht; lra | done].
    + pose proof (finish_now (p (Ok true)) (later (clamp stall) w2)) as Hn.
      rewrite Hf in Hn. cbn [later now snd] in Hn. rewrite Hnw in Hn.
      destruct (IH _ (timeout - clamp stall)%Q _ Hf) as (t & Ht & Hw);
        [cbn [later now]; rewrite Hnw; lra|].
      exists t. split; [cbn [later now] in Ht; rewrite Hnw in Ht; lra | done].
    + inversion Et; subst. apply Qle_bool_iff in Hle.
      pose proof (finish_now (p (Ok true)) (later (clamp stall) w2)) as Hn.
      rewrite Hf in Hn. cbn [later now snd] in Hn. rewrite Hnw in Hn. lra.
Qed.

Lemma REQUEST_TIMEOUT_pos : (0 < REQUEST_TIMEOUT)%Q.
Proof. unfold REQUEST_TIMEOUT. lra. Qed.

(** ** One pass of the connection loop *)

Lemma stop_started w lp :
  __loop (self w) = Some lp -> stop w = (Raise SystemExit, stopped w).
Proof.
  intros H. unfold stop, mbind, M_bind, gets, emit, modify, set_alive,
    set_self, raise. rewrite H. cbn. unfold stopped.
  by rewrite <- app_assoc.
Qed.

Lemma stop_unstarted w :
  __loop (self w) = None -> stop w = (Raise AttributeError, w).
Proof.
  intros H. unfold stop, mbind, M_bind, gets, raise. by rewrite H.
Qed.

Lemma aborts_invoked type data w : aborts (invoked type data w) = aborts w.
Proof.
  unfold aborts. cbn. by rewrite List.filter_app, length_app, Nat.add_0_r.
Qed.

Lemma aborts_stop w : aborts (stop w).2 = aborts w.
Proof.
  destruct (__loop (self w)) as [lp|] eqn:Hl.
  - rewrite (stop_started _ _ Hl). unfold aborts. cbn.
    by rewrite List.filter_app, length_app, Nat.add_0_r.
  - by rewrite (stop_unstarted _ Hl).
Qed.

Lemma aborts_cancelled w : aborts (cancelled w) = aborts w.
Proof.
  unfold aborts. cbn. by rewrite List.filter_app, length_app, Nat.add_0_r.
Qed.

Lemma aborts_write_paused message stall timeout w :
  aborts (write_paused message stall timeout w).2 = aborts w.
Proof.
  destruct (write_effect message w) as (_ & _ & Ht).
  assert (Hw : aborts (write message w).2 = aborts w)
    by (unfold aborts; by rewrite Ht).
  destruct (write_paused_cases message stall timeout w)
    as [(e & E1 & ->)|[(w1 & E1 & ->)|(w1 & E1 & [[-> _]|(t & E2 & _ & ->)])]];
    rewrite E1 in Hw; cbn [snd] in *; try done.
  by rewrite aborts_cancelled.
Qed.

(** Only [SystemExit] and [KeyboardInterrupt] bring the loop down. *)
Lemma finish_no_exit fut w :
  no_exit fut -> aborts (finish fut w).2 = aborts w.
Proof.
  revert w.
  induction fut as [|e|delay k IH|message k IH|delay k IH h _|message stall k IH];
    intros w Hne.
  - done.
  - cbn [finish no_exit] in *. by rewrite throw_eq, Hne.
  - rewrite finish_Sleep. by rewrite IH.
  - rewrite finish_AwaitWrite, IH by apply Hne.
    destruct (write_effect message w) as (_ & _ & Ht).
    unfold aborts. by rewrite Ht.
  - rewrite finish_SleepTry. rewrite IH; [done | apply Hne].
  - rewrite finish_StalledWrite.
    pose proof (aborts_write_paused message (clamp stall) None w) as Hw.
    destruct (write_paused _ _ _ w) as [[[b s]|e] w']; cbn [snd] in Hw;
      rewrite IH by apply Hne; done.
Qed.

Lemma no_exit_seq pre k w wp :
  no_exit (seq pre k) -> finish pre w = (Ok tt, wp) -> no_exit k.
Proof.
  revert w.
  induction pre as [|e|delay p IH|message p IH|delay p IH h _|message stall p IH];
    intros w Hne Hf; cbn [seq no_exit] in Hne.
  - done.
  - cbn [finish] in Hf. by rewrite throw_eq in Hf.
  - rewrite finish_Sleep in Hf. by eapply IH.
  - rewrite finish_AwaitWrite in Hf. eapply IH; [apply Hne | exact Hf].
  - rewrite finish_SleepTry in Hf. eapply IH; [apply Hne | exact Hf].
  - rewrite finish_StalledWrite in Hf.
    destruct (write_paused _ _ _ w) as [[[b s]|e] w'];
      (eapply IH; [apply Hne | exact Hf]).
Qed.

Lemma wait_for_no_exit fut timeout w :
  no_exit fut -> aborts (wait_for fut timeout w).2 = aborts w.
Proof.
  revert timeout w.
  induction fut as [|e|delay k IH|message k IH|delay k IH h _|message stall k IH];
    intros timeout w Hne.
  - done.
  - cbn [wait_for no_exit] in *. by rewrite throw_eq, Hne.
  - rewrite wait_for_Sleep. destruct (Qle_bool timeout _).
    + cbn [snd]. by rewrite aborts_cancelled.
    + by rewrite IH.
  - rewrite wait_for_AwaitWrite, IH by apply Hne.
    destruct (write_effect message w) as (_ & _ & Ht).
    unfold aborts. by rewrite Ht.
  - rewrite wait_for_SleepTry. destruct Hne as [Hk Hh].
    destruct (Qle_bool timeout _).
    + by rewrite after_cancel_snd, finish_no_exit, aborts_cancelled.
    + by rewrite IH.
  - rewrite wait_for_StalledWrite. cbn [no_exit] in Hne.
    pose proof (aborts_write_paused message (clamp stall) (Some timeout) w)
      as Hw.
    destruct (write_paused _ _ _ w) as [[[b [s|]]|e] w']; cbn [snd] in Hw.
    + by rewrite IH.
    + by rewrite after_cancel_snd, finish_no_exit.
    + by rewrite IH.
Qed.

Section ServerFacts.

Variable json_loads : pystr -> result pyval.
Variable funcs : gmap pystr handler.

(** What [dispatch] comes to: the callback, if one is called, decides
    the world; of its outcome the bare [except] leaves nothing, unless
    the event loop has gone down under it. *)
Lemma dispatch_eq text w :
  dispatch json_loads funcs text w
  = match json_loads text with
    | Raise _ => (Ok tt, w)
    | Ok data =>
      match getitem data (str "type") with
      | Raise _ => (Ok tt, w)
      | Ok type =>
        if eq_str type (str "terminate") then (Ok tt, (stop w).2)
        else match dict_get funcs type with
             | Ok (Some callback) =>
               let w1 := invoked (match type with PStr s => s | _ => [] end)
                                 data w in
               (survives w (wait_for (callback data) REQUEST_TIMEOUT w1).2
                         (wait_for (callback data) REQUEST_TIMEOUT w1).1,
                (wait_for (callback data) REQUEST_TIMEOUT w1).2)
             | _ => (Ok tt, w)
             end
      end
    end.
Proof.
  unfold dispatch, suppress, mbind, M_bind, lift.
  destruct (json_loads text) as [data|e];
    [|by rewrite bool_decide_eq_true_2].
  destruct (getitem data (str "type")) as [type|e];
    [|by rewrite bool_decide_eq_true_2].
  destruct (eq_str type (str "terminate")).
  - pose proof (aborts_stop w) as Hs.
    destruct (__loop (self w)) as [lp|] eqn:Hl.
    + rewrite (stop_started _ _ Hl) in Hs |- *. cbn [snd] in Hs.
      by rewrite bool_decide_eq_true_2.
    + rewrite (stop_unstarted _ Hl). by rewrite bool_decide_eq_true_2.
  - unfold mret, M_ret, dict_getitem.
    destruct (dict_get funcs type) as [[callback|]|e];
      [|done|by rewrite bool_decide_eq_true_2].
    unfold emit, modify. cbv zeta.
    fold (invoked (match type with PStr s => s | _ => [] end) data w).
    destruct (wait_for _ _ _) as [[[]|e] w']; cbn [fst snd survives];
      [done|]. by destruct (bool_decide _).
Qed.

(** The world [dispatch] leaves. *)
Lemma dispatch_snd text w :
  (dispatch json_loads funcs text w).2
  = match json_loads text with
    | Raise _ => w
    | Ok data =>
      match getitem data (str "type") with
      | Raise _ => w
      | Ok type =>
        if eq_str type (str "terminate") then (stop w).2
        else match dict_get funcs type with
             | Ok (Some callback) =>
               (wait_for (callback data) REQUEST_TIMEOUT
                         (invoked (match type with PStr s => s | _ => [] end)
                                  data w)).2
             | _ => w
             end
      end
    end.
Proof.
  rewrite dispatch_eq.
  destruct (json_loads text) as [data|]; [|done].
  destruct (getitem data (str "type")) as [type|]; [|done].
  destruct (eq_str type (str "terminate")); [done|].
  by destruct (dict_get funcs type) as [[h|]|].
Qed.

Lemma decode_ascii_raises b e :
  decode_ascii b = Raise e -> e = UnicodeDecodeError.
Proof.
  unfold decode_ascii. destruct (forallb _ b); [done|]. congruence.
Qed.

(** A pass that finds a frame in the buffer goes back to the loop
    test, whatever the frame holds, unless the event loop goes down
    under the callback it awaits. *)
Lemma iteration_chunk c w chunk r' :
  __alive (self w) = true ->
  readuntil CRLF (reader (conns w c)) = (RChunk chunk, r') ->
  iteration json_loads funcs c w
  = match decode_ascii chunk with
    | Ok text =>
      (match (dispatch json_loads funcs text (advance c r' w)).1 with
       | Ok _ => Ok Next
       | Raise e => Raise e
       end,
       (dispatch json_loads funcs text (advance c r' w)).2)
    | Raise _ => (Ok Next, advance c r' w)
    end.
Proof.
  intros Ha Hr.
  unfold iteration, mbind, M_bind, gets, read_frame.
  rewrite Ha. cbn [negb]. cbv zeta. rewrite Hr. fold (advance c r' w).
  destruct (decode_ascii chunk) as [text|e] eqn:Hd.
  - by destruct (dispatch json_loads funcs text (advance c r' w)) as [[[]|e] w'].
  - by rewrite (decode_ascii_raises _ _ Hd).
Qed.

Lemma resume_read_chunk c w chunk r' :
  readuntil CRLF (reader (conns w c)) = (RChunk chunk, r') ->
  resume_read json_loads funcs c w
  = match decode_ascii chunk with
    | Ok text =>
      (match (dispatch json_loads funcs text (advance c r' w)).1 with
       | Ok _ => Ok Next
       | Raise e => Raise e
       end,
       (dispatch json_loads funcs text (advance c r' w)).2)
    | Raise _ => (Ok Next, advance c r' w)
    end.
Proof.
  intros Hr.
  unfold resume_read, mbind, M_bind, read_frame.
  cbv zeta. rewrite Hr. fold (advance c r' w).
  destruct (decode_ascii chunk) as [text|e] eqn:Hd.
  - by destruct (dispatch json_loads funcs text (advance c r' w)) as [[[]|e] w'].
  - by rewrite (decode_ascii_raises _ _ Hd).
Qed.

(** Past its test, a pass of the loop is what a task does that is woken
    up in [readuntil]. *)
Lemma iteration_alive c w :
  __alive (self w) = true ->
  iteration json_loads funcs c w = resume_read json_loads funcs c w.
Proof.
  intros Ha. unfold iteration, resume_read, mbind at 1, M_bind at 1, gets.
  by rewrite Ha.
Qed.

Lemma iteration_Next c w w' fuel :
  iteration json_loads funcs c w = (Ok Next, w') ->
  while_alive json_loads funcs (S fuel) c w
  = while_alive json_loads funcs fuel c w'.
Proof.
  intros H. cbn [while_alive]. unfold mbind, M_bind. by rewrite H.
Qed.

End ServerFacts.

(** ** Dispatching *)

Section Dispatching.

Variable json_loads : pystr -> result pyval.
Variable funcs : gmap pystr handler.

Lemma iteration_request c w type data h w0 :
  next_request json_loads funcs c w = Some (type, data, h, w0) ->
  let w1 := invoked type data w0 in
  iteration json_loads funcs c w
  = (match survives w0 (wait_for (h data) REQUEST_TIMEOUT w1).2
                    (wait_for (h data) REQUEST_TIMEOUT w1).1 with
     | Ok _ => Ok Next
     | Raise e => Raise e
     end,
     (wait_for (h data) REQUEST_TIMEOUT w1).2)
  /\ self w0 = self w /\ __alive (self w) = true
  /\ now w0 = now w /\ trace w0 = trace w.
Proof.
  unfold next_request. intros H.
  destruct (__alive (self w)) eqn:Ha; [|done].
  destruct (readuntil CRLF (reader (conns w c))) as [[chunk| |] r'] eqn:Hr;
    try done.
  rewrite (iteration_chunk _ _ _ _ _ _ Ha Hr).
  destruct (decode_ascii chunk) as [text|]; [|done].
  rewrite dispatch_eq.
  destruct (json_loads text) as [data'|]; [|done].
  destruct (getitem data' (str "type")) as [[| | | |ty| |]|]; try done.
  cbn [eq_str dict_get]. destruct (bool_decide (ty = str "terminate")); [done|].
  destruct (funcs !! ty) as [h'|]; [|done].
  by inversion H; subst.
Qed.

(** A callback that raises neither [SystemExit] nor [KeyboardInterrupt]
    ends the pass that awaits it in the loop test, whatever it does and
    however it ends. *)
Lemma iteration_no_exit c w type data h w0 :
  next_request json_loads funcs c w = Some (type, data, h, w0) ->
  no_exit (h data) ->
  iteration json_loads funcs c w
  = (Ok Next, (wait_for (h data) REQUEST_TIMEOUT (invoked type data w0)).2).
Proof.
  intros H Hne. destruct (iteration_request _ _ _ _ _ _ H) as (-> & _).
  pose proof (wait_for_no_exit (h data) REQUEST_TIMEOUT
                               (invoked type data w0) Hne) as Ha.
  rewrite aborts_invoked in Ha.
  destruct (wait_for _ _ _) as [[[]|e] w']; cbn [fst snd survives] in *;
    [done|]. by rewrite bool_decide_eq_true_2.
Qed.

(** The moment of the timeout, for a callback that was called in [w1],
    has run up to [wp] and is then suspended for [delay] seconds. *)
Lemma timeout_reached pre k w1 wp delay :
  finish pre w1 = (Ok tt, wp) ->
  (now wp < now w1 + REQUEST_TIMEOUT)%Q ->
  (now w1 + REQUEST_TIMEOUT <= now wp + delay)%Q ->
  exists t, wait_for (seq pre k) REQUEST_TIMEOUT w1 = wait_for k t wp
            /\ Qle_bool t delay = true
            /\ (0 < t)%Q
            /\ timed_out w1 wp (cancelled (later t wp)).
Proof.
  intros Hf Hlt Hle.
  destruct (wait_for_seq pre k REQUEST_TIMEOUT w1 wp Hf) as (t & Ht & Hw);
    [lra|].
  exists t. split; [done|]. split; [apply Qle_bool_iff; lra|].
  split; [lra|]. repeat split. cbn. lra.
Qed.

(** C2: a frame that parses to a JSON object whose type is "terminate"
    stops the server, whatever the registry holds: [loop.stop()] and
    [exit()] are called, the liveness flag is cleared, no callback is
    looked up or called, and the next loop test of every connection
    fails. ([SystemExit] from [exit()] dies in the bare [except].) *)
Theorem terminate_stops_server text d w lp :
  json_loads text = Ok (PDict d) ->
  assoc (str "type") d = Some (PStr (str "terminate")) ->
  __loop (self w) = Some lp ->
  dispatch json_loads funcs text w = (Ok tt, stopped w)
  /\ __alive (self (stopped w)) = false
  /\ trace (stopped w) = trace w ++ [EvLoopStop; EvExit]
  /\ forall c, iteration json_loads funcs c (stopped w) = (Ok Break, stopped w).
Proof.
  intros Hj Ht Hl. rewrite dispatch_eq, Hj. cbn [getitem]. rewrite Ht.
  cbn [eq_str]. rewrite bool_decide_eq_true_2 by done.
  rewrite (stop_started _ _ Hl). repeat split.
Qed.

(** C5, amended: a callback is awaited under a timeout of
    [REQUEST_TIMEOUT] = 5 seconds. One that ends by itself before the
    timeout runs exactly as it would without it. One that is suspended
    when the timeout expires is sent its cancellation at that moment,
    with all it did before left as it is. If it is in a plain sleep it
    ends there, and [TimeoutError] is raised; if it catches the
    cancellation, or waits in [self.write] (whose bare [except] takes
    it, so that [write] returns [False]), it goes on and is awaited to
    its end, however long that takes. Unless the callback raises
    [SystemExit] or [KeyboardInterrupt], the pass then ends in the loop
    test and the loop goes on with the next frame. *)
Theorem handler_timeout c w type data h w0 :
  next_request json_loads funcs c w = Some (type, data, h, w0) ->
  let w1 := invoked type data w0 in
  let end_ := wait_for (h data) REQUEST_TIMEOUT w1 in
  (REQUEST_TIMEOUT == 5)%Q
  /\ (no_exit (h data) ->
      iteration json_loads funcs c w = (Ok Next, end_.2)
      /\ forall fuel, while_alive json_loads funcs (S fuel) c w
                      = while_alive json_loads funcs fuel c end_.2)
  /\ ((lasts (h data) w1 < REQUEST_TIMEOUT)%Q -> end_ = finish (h data) w1)
  /\ (forall pre delay k wp,
         h data = seq pre (Sleep delay k) ->
         finish pre w1 = (Ok tt, wp) ->
         (now wp < now w1 + REQUEST_TIMEOUT)%Q ->
         (now w1 + REQUEST_TIMEOUT <= now wp + clamp delay)%Q ->
         exists wc, timed_out w1 wp wc /\ end_ = (Raise TimeoutError, wc))
  /\ (forall pre delay k on_cancel wp,
         h data = seq pre (SleepTry delay k on_cancel) ->
         finish pre w1 = (Ok tt, wp) ->
         (now wp < now w1 + REQUEST_TIMEOUT)%Q ->
         (now w1 + REQUEST_TIMEOUT <= now wp + clamp delay)%Q ->
         exists wc, timed_out w1 wp wc /\ end_ = after_cancel on_cancel wc)
  /\ (forall pre message stall k wp ww,
         h data = seq pre (StalledWrite message stall k) ->
         finish pre w1 = (Ok tt, wp) ->
         write message wp = (Ok true, ww) ->
         (now wp < now w1 + REQUEST_TIMEOUT)%Q ->
         (now w1 + REQUEST_TIMEOUT <= now wp + clamp stall)%Q ->
         exists wc, timed_out w1 ww wc
                    /\ end_ = after_cancel (k (Ok false)) wc).
Proof.
  intros H w1 end_. split; [done|]. split; [|split; [|split; [|split]]].
  - intros Hne. pose proof (iteration_no_exit _ _ _ _ _ _ H Hne) as Hi.
    split; [exact Hi|]. intros fuel. by apply iteration_Next.
  - intros Hlt. by apply wait_for_in_time.
  - intros pre delay k wp Hh Hf Hlt Hle. unfold end_. rewrite Hh.
    destruct (timeout_reached pre (Sleep delay k) w1 wp (clamp delay)
                Hf Hlt Hle) as (t & -> & Ht & _ & Hto).
    rewrite wait_for_Sleep, Ht. by eexists.
  - intros pre delay k on_cancel wp Hh Hf Hlt Hle. unfold end_. rewrite Hh.
    destruct (timeout_reached pre (SleepTry delay k on_cancel) w1 wp
                (clamp delay) Hf Hlt Hle) as (t & -> & Ht & _ & Hto).
    rewrite wait_for_SleepTry, Ht. by eexists.
  - intros pre message stall k wp ww Hh Hf Hw Hlt Hle. unfold end_.
    rewrite Hh.
    destruct (timeout_reached pre (StalledWrite message stall k) w1 wp
                (clamp stall) Hf Hlt Hle) as (t & -> & Ht & _ & Hto).
    rewrite wait_for_StalledWrite.
    destruct (write_effect message wp) as ([Hs _] & Hn & Htr).
    rewrite Hw in Hs, Hn, Htr. cbn [snd] in Hs, Hn, Htr.
    destruct (write_paused_cases message (clamp stall) (Some t) wp)
      as [(e & W & _)|[(w2 & W & _)|(w2 & W & [[_ Hlt']|(t' & Et & _ & E)])]];
      rewrite Hw in W; inversion W; subst; clear W.
    + specialize (Hlt' t eq_refl). congruence.
    + inversion Et; subst. rewrite E. eexists. split; [|done].
      destruct Hto as (_ & _ & _ & Hnow). repeat split. cbn in *.
      rewrite Hn. exact Hnow.
Qed.

(** C6, amended: whatever exception other than [SystemExit] and
    [KeyboardInterrupt] a callback raises, and wherever, it goes no
    further than the bare [except] of line 113: the pass ends in the
    loop test, with the world as the callback left it, and the loop goes
    on with the next frame. An exception raised before the timeout
    leaves what the callback did until then as it is. *)
Theorem handler_exception_discarded c w type data h w0 :
  next_request json_loads funcs c w = Some (type, data, h, w0) ->
  no_exit (h data) ->
  let w1 := invoked type data w0 in
  let end_ := wait_for (h data) REQUEST_TIMEOUT w1 in
  iteration json_loads funcs c w = (Ok Next, end_.2)
  /\ (forall fuel, while_alive json_loads funcs (S fuel) c w
                   = while_alive json_loads funcs fuel c end_.2)
  /\ (forall pre e wp,
         h data = seq pre (Throw e) ->
         finish pre w1 = (Ok tt, wp) ->
         (now wp < now w1 + REQUEST_TIMEOUT)%Q ->
         end_ = (Raise e, wp)).
Proof.
  intros H Hne w1 end_.
  pose proof (iteration_no_exit _ _ _ _ _ _ H Hne) as Hi.
  split; [exact Hi|]. split; [intros fuel; by apply iteration_Next|].
  intros pre e wp Hh Hf Hlt. unfold end_.
  rewrite Hh in Hne |- *.
  destruct (wait_for_seq pre (Throw e) REQUEST_TIMEOUT w1 wp Hf)
    as (t & _ & ->); [lra|].
  cbn [wait_for]. rewrite throw_eq.
  pose proof (no_exit_seq pre (Throw e) w1 wp Hne Hf) as He.
  cbn [no_exit] in He. by rewrite He.
Qed.

(** C7, amended: a frame that is malformed, or whose type is unknown
    and is not the reserved "terminate", is dropped: the pass only
    takes the frame off the buffer of its connection. No callback is
    called, nothing is written, the server stays alive and the loop goes
    on with the next frame. *)
Theorem malformed_frame_discarded c w chunk r' :
  __alive (self w) = true ->
  readuntil CRLF (reader (conns w c)) = (RChunk chunk, r') ->
  dropped json_loads funcs chunk = true ->
  iteration json_loads funcs c w = (Ok Next, advance c r' w)
  /\ __alive (self (advance c r' w)) = true
  /\ trace (advance c r' w) = trace w
  /\ (forall d, submitted (conns (advance c r' w) d) = submitted (conns w d))
  /\ (forall fuel, while_alive json_loads funcs (S fuel) c w
                   = while_alive json_loads funcs fuel c (advance c r' w)).
Proof.
  intros Ha Hr Hd.
  assert (Hi : iteration json_loads funcs c w = (Ok Next, advance c r' w)).
  { rewrite (iteration_chunk _ _ _ _ _ _ Ha Hr). unfold dropped in Hd.
    destruct (decode_ascii chunk) as [text|]; [|done].
    rewrite dispatch_eq.
    destruct (json_loads text) as [data|]; [|done].
    destruct (getitem data (str "type")) as [[| | | |ty| |]|]; try done.
    cbn [eq_str dict_get]. apply andb_prop in Hd as [Hne Hf].
    destruct (bool_decide (ty = str "terminate")); [done|].
    by destruct (funcs !! ty). }
  repeat split; try done.
  - intros d. cbn. destruct (decide (c = d)) as [->|Hne].
    + by rewrite fn_lookup_insert.
    + by rewrite fn_lookup_insert_ne.
  - intros fuel. by apply iteration_Next.
Qed.

End Dispatching.

Lemma terminate_stops_server_witness :
  registry !! str "terminate" = Some pong
  /\ dispatch json.loads registry (dq "{'type':'terminate'}" ++ CRLF) serving
     = (Ok tt, stopped serving)
  /\ __alive (self (stopped serving)) = false
  /\ trace (stopped serving) = trace serving ++ [EvLoopStop; EvExit].
Proof.
  split; [reflexivity|].
  destruct (terminate_stops_server json.loads registry
              (dq "{'type':'terminate'}" ++ CRLF)
              [(str "type", PStr (str "terminate"))] serving TheEventLoop)
    as (H1 & H2 & H3 & _); [reflexivity | reflexivity | reflexivity |].
  by repeat split.
Defined.

(** C5, as the claim has it, fails: the invocation is not bounded by
    the timeout, and the cancellation does not end the callback. The
    callback for "report" is waiting in [self.write] when its five
    seconds are over: [write] takes the cancellation and returns
    [False], the callback sleeps for ten seconds more and writes again.
    The pass takes fifteen seconds. *)
Lemma handler_outlives_timeout :
  let w := run json.loads unruly
               [DataReceived 0%nat (dq "{'type':'report'}" ++ CRLF)] serving in
  let w' := (iteration json.loads unruly 0%nat w).2 in
  unruly !! str "report" = Some report
  /\ (iteration json.loads unruly 0%nat w).1 = Ok Next
  /\ (now w' == now w + 15)%Q
  /\ ~ (now w' <= now w + REQUEST_TIMEOUT)%Q
  /\ trace w' = trace w ++ [EvInvoke (str "report")
                              (PDict [(str "type", PStr (str "report"))]);
                            EvCancel]
  /\ submitted (conns w' 0%nat) = str "pong" ++ str "done".
Proof. vm_compute. repeat split. intros H. by apply H. Qed.

Lemma handler_timeout_witness :
  let w := received (dq "{'type':'nap'}") in
  let data := PDict [(str "type", PStr (str "nap"))] in
  let w1 := invoked (str "nap") data
                    (advance 0%nat (mkReader [] false None _DEFAULT_LIMIT) w) in
  let v := received (dq "{'type':'ping'}") in
  let ping := PDict [(str "type", PStr (str "ping"))] in
  let v1 := invoked (str "ping") ping
                    (advance 0%nat (mkReader [] false None _DEFAULT_LIMIT) v) in
  (exists wc, timed_out w1 w1 wc
              /\ wait_for (Sleep 10 Return) REQUEST_TIMEOUT w1
                 = (Raise TimeoutError, wc))
  /\ (iteration json.loads registry 0%nat w).1 = Ok Next
  /\ wait_for (pong ping) REQUEST_TIMEOUT v1 = finish (pong ping) v1
  /\ submitted (conns (finish (pong ping) v1).2 0%nat) = str "pong".
Proof.
  intros w data w1 v ping v1.
  destruct (handler_timeout json.loads registry 0%nat w (str "nap") data
              (fun _ => Sleep 10 Return)
              (advance 0%nat (mkReader [] false None _DEFAULT_LIMIT) w))
    as (_ & Hpass & _ & Hsleep & _); [reflexivity|].
  destruct (handler_timeout json.loads registry 0%nat v (str "ping") ping pong
              (advance 0%nat (mkReader [] false None _DEFAULT_LIMIT) v))
    as (_ & _ & Hintime & _); [reflexivity|].
  split; [|split; [|split]].
  - apply (Hsleep Return 10%Q Return w1);
      [reflexivity | reflexivity | vm_compute; reflexivity
       | vm_compute; discriminate].
  - destruct (Hpass I) as [Hi _]. by rewrite Hi.
  - apply Hintime. vm_compute. reflexivity.
  - reflexivity.
Defined.

(** C6, as the claim has it, fails: a callback that raises [SystemExit]
    (it calls [exit()]) is not stopped by the bare [except]. The
    exception leaves the task of the callback and the event loop with
    it: [run_forever()] raises it, the task of the connection is left
    waiting for the callback, and the frame behind is not handled. *)
Lemma handler_exit_brings_loop_down :
  let w := run json.loads unruly
               [DataReceived 0%nat (dq "{'type':'quit'}" ++ CRLF
                                    ++ dq "{'type':'report'}" ++ CRLF)]
               serving in
  let w' := act json.loads unruly (Wakeup 0%nat) w in
  unruly !! str "quit" = Some quit
  /\ (resume_read json.loads unruly 0%nat w).1 = Raise SystemExit
  /\ (iteration json.loads unruly 0%nat w).1 = Raise SystemExit
  /\ trace w' = trace w ++ [EvInvoke (str "quit")
                              (PDict [(str "type", PStr (str "quit"))]);
                            EvAbort SystemExit]
  /\ task (conns w' 0%nat) = Abandoned
  /\ _buffer (reader (conns w' 0%nat)) = dq "{'type':'report'}" ++ CRLF.
Proof. vm_compute. by repeat split. Qed.

Lemma handler_exception_discarded_witness :
  let w := received (dq "{'type':'fail'}") in
  let data := PDict [(str "type", PStr (str "fail"))] in
  let w1 := invoked (str "fail") data
                    (advance 0%nat (mkReader [] false None _DEFAULT_LIMIT) w) in
  iteration json.loads registry 0%nat w = (Ok Next, w1)
  /\ wait_for (Throw (UserError (str "ValueError"))) REQUEST_TIMEOUT w1
     = (Raise (UserError (str "ValueError")), w1).
Proof.
  intros w data w1.
  destruct (handler_exception_discarded json.loads registry 0%nat w
              (str "fail") data
              (fun _ => Throw (UserError (str "ValueError")))
              (advance 0%nat (mkReader [] false None _DEFAULT_LIMIT) w))
    as (Hi & _ & Hthrow); [reflexivity | reflexivity |].
  pose proof (Hthrow Return (UserError (str "ValueError")) w1
                     eq_refl eq_refl ltac:(vm_compute; reflexivity)) as He.
  split; [|exact He]. rewrite Hi. by rewrite He.
Defined.

(** C7, as the claim has it, fails: "terminate" is a type the registry
    need not hold, and a frame of that type is not dropped: it clears the
    liveness flag. *)
Lemma terminate_unregistered_stops :
  let w := run json.loads ∅
               [DataReceived 0%nat (dq "{'type':'terminate'}" ++ CRLF)]
               serving in
  (∅ : gmap pystr handler) !! str "terminate" = None
  /\ __alive (self w) = true
  /\ __alive (self (iteration json.loads ∅ 0%nat w).2) = false.
Proof. vm_compute. by repeat split. Qed.

Lemma malformed_frame_discarded_witness :
  let w := received (str "not json") in
  let w' := advance 0%nat (mkReader [] false None _DEFAULT_LIMIT) w in
  iteration json.loads registry 0%nat w = (Ok Next, w')
  /\ __alive (self w') = true
  /\ trace w' = trace w.
Proof.
  intros w w'.
  destruct (malformed_frame_discarded json.loads registry 0%nat w
              (str "not json" ++ CRLF)
              (mkReader [] false None _DEFAULT_LIMIT))
    as (Hi & Ha & Ht & _); [reflexivity | reflexivity | reflexivity |].
  by repeat split.
Defined.

(** ** Errors of the connection *)

Lemma readuntil_exception r e :
  _exception r = Some e -> readuntil CRLF r = (RRaise e, r).
Proof. intros H. unfold readuntil. by rewrite H. Qed.

Lemma readuntil_incomplete r :
  _exception r = None -> _eof r = true ->
  find CRLF (_buffer r) = None ->
  N.of_nat (length (_buffer r)) <= _limit r + 1 ->
  readuntil CRLF r
  = (RRaise (IncompleteReadError (_buffer r)), consume (length (_buffer r)) r).
Proof.
  intros He Heof Hf Hl. unfold readuntil. rewrite He, Hf, Heof.
  cbn [length CRLF].
  assert (Hnl : (bool_decide (2 <= length (_buffer r))%nat
                 && (_limit r <? N.of_nat (length (_buffer r) + 1 - 2)))
                = false).
  { destruct (bool_decide _); [|done]. cbn [andb]. apply N.ltb_ge. lia. }
  destruct (bool_decide (2 <= length (_buffer r))%nat); rewrite Hnl;
    unfold consume; by rewrite drop_all, He, Heof.
Qed.

Lemma readuntil_failed r :
  reader_failed r ->
  exists e r', readuntil CRLF r = (RRaise e, r')
               /\ is_ConnectionError e || is_IncompleteReadError e = true.
Proof.
  intros [(e & He & Hc)|(He & Heof & Hf & Hl)].
  - exists e, r. split; [by apply readuntil_exception | by rewrite Hc].
  - eexists _, _. split; [by apply readuntil_incomplete | done].
Qed.

Lemma readuntil_waits r :
  _exception r = None -> _eof r = false ->
  find CRLF (_buffer r) = None ->
  N.of_nat (length (_buffer r)) <= _limit r + 1 ->
  readuntil CRLF r = (RWait, r).
Proof.
  intros He Heof Hf Hl. unfold readuntil. rewrite He, Hf, Heof.
  cbn [length CRLF].
  assert (Hnl : (bool_decide (2 <= length (_buffer r))%nat
                 && (_limit r <? N.of_nat (length (_buffer r) + 1 - 2)))
                = false).
  { destruct (bool_decide _); [|done]. cbn [andb]. apply N.ltb_ge. lia. }
  by destruct (bool_decide (2 <= length (_buffer r))%nat); rewrite Hnl.
Qed.

Lemma readuntil_overrun r :
  over_limit r -> readuntil CRLF r = (RRaise LimitOverrunError, r).
Proof.
  intros [He [(i & Hf & Hl)|[Hf Hl]]]; [by apply (readuntil_over r i)|].
  unfold readuntil. rewrite He, Hf. cbn [length CRLF].
  rewrite bool_decide_eq_true_2 by lia. cbn [andb].
  by destruct (N.ltb_spec (_limit r) (N.of_nat (length (_buffer r) + 1 - 2)));
    [|lia].
Qed.

Lemma readuntil_RChunk_inv r chunk r' :
  readuntil CRLF r = (RChunk chunk, r') ->
  exists i, find CRLF (_buffer r) = Some i
            /\ chunk = take (i + 2) (_buffer r)
            /\ r' = consume (i + 2) r.
Proof.
  unfold readuntil. destruct (_exception r) eqn:He; [done|].
  cbn [length CRLF]. intros H.
  destruct (bool_decide (2 <= length (_buffer r))%nat).
  - destruct (find CRLF (_buffer r)) as [i|].
    + destruct (_limit r <? N.of_nat i); [done|].
      inversion H; subst. exists i. unfold consume. by rewrite He.
    + cbn [andb] in H.
      by repeat match type of H with
                | context [if ?b then _ else _] => destruct b
                end.
  - cbn [andb] in H. by destruct (_eof r).
Qed.

(** The clause of line 116 handles nothing: building its tuple
    raises. *)
Lemma except_116_raises e : except_116 e = Raise AttributeError.
Proof. done. Qed.

Lemma invocations_app t u :
  invocations (t ++ u) = (invocations t + invocations u)%nat.
Proof. unfold invocations. by rewrite List.filter_app, length_app. Qed.

Lemma advance_submitted c r' w d :
  submitted (conns (advance c r' w) d) = submitted (conns w d).
Proof.
  cbn. destruct (decide (c = d)) as [->|Hne].
  - by rewrite fn_lookup_insert.
  - by rewrite fn_lookup_insert_ne.
Qed.

Lemma set_task_submitted c t w d :
  submitted (conns (set_task c t w).2 d) = submitted (conns w d).
Proof.
  cbn. destruct (decide (c = d)) as [->|Hne].
  - by rewrite fn_lookup_insert.
  - by rewrite fn_lookup_insert_ne.
Qed.

Lemma world_eq w w' :
  self w = self w' -> (forall d, conns w d = conns w' d) ->
  now w = now w' -> trace w = trace w' -> w = w'.
Proof.
  destruct w, w'. cbn. intros -> Hc -> ->. f_equal.
  by apply functional_extensionality.
Qed.

(** ** Passes and turns *)

Section Passes.

Variable json_loads : pystr -> result pyval.
Variable funcs : gmap pystr handler.

Lemma iteration_dead c w :
  __alive (self w) = false -> iteration json_loads funcs c w = (Ok Break, w).
Proof.
  intros Ha. unfold iteration, mbind, M_bind, gets. by rewrite Ha.
Qed.

Lemma resume_read_wait c w r' :
  readuntil CRLF (reader (conns w c)) = (RWait, r') ->
  resume_read json_loads funcs c w = (Ok Wait, advance c r' w).
Proof.
  intros Hr. unfold resume_read, mbind, M_bind, read_frame.
  cbv zeta. by rewrite Hr.
Qed.

Lemma resume_read_raise c w e r' :
  readuntil CRLF (reader (conns w c)) = (RRaise e, r') ->
  resume_read json_loads funcs c w = (Raise e, advance c r' w).
Proof.
  intros Hr. unfold resume_read, mbind, M_bind, read_frame.
  cbv zeta. by rewrite Hr.
Qed.

Lemma iteration_wait c w r' :
  __alive (self w) = true ->
  readuntil CRLF (reader (conns w c)) = (RWait, r') ->
  iteration json_loads funcs c w = (Ok Wait, advance c r' w).
Proof.
  intros Ha Hr. rewrite (iteration_alive _ _ _ _ Ha).
  by apply resume_read_wait.
Qed.

Lemma iteration_raise c w e r' :
  __alive (self w) = true ->
  readuntil CRLF (reader (conns w c)) = (RRaise e, r') ->
  iteration json_loads funcs c w = (Raise e, advance c r' w).
Proof.
  intros Ha Hr. rewrite (iteration_alive _ _ _ _ Ha).
  by apply resume_read_raise.
Qed.

(** However the loop is left, [handle_connection] is over or waits:
    the task of the connection is given its state, and nothing else is
    done. The writer reference is not touched. *)
Lemma conclude_eq c w r w1 :
  conclude c w (r, w1)
  = set_task c match r with
               | Ok Exited => Finished
               | Ok Waiting => Suspended
               | Ok OutOfFuel => Diverged
               | Raise _ => if bool_decide (aborts w1 = aborts w)
                            then Failed AttributeError else Abandoned
               end w1.
Proof.
  unfold conclude. destruct r as [[| |]|e]; try done.
  by destruct (bool_decide _).
Qed.

End Passes.

(** Whatever holds of the steps of a turn (a frame is taken off a
    buffer, [stop()], a callback called and awaited, a field of a
    connection other than what its writer was given is set) and is
    reflexive and transitive, holds of every pass, of every turn of a
    task and, if it holds of setting the writer reference as well, of
    every run. *)
Section Turns.

Variable json_loads : pystr -> result pyval.
Variable funcs : gmap pystr handler.

Variable P : World -> World -> Prop.
Hypothesis P_refl : forall w, P w w.
Hypothesis P_trans : forall w1 w2 w3, P w1 w2 -> P w2 w3 -> P w1 w3.
Hypothesis P_advance : forall c r' w, P w (advance c r' w).
Hypothesis P_stop : forall w, P w (stop w).2.
Hypothesis P_call : forall fut type data w,
  P w (wait_for fut REQUEST_TIMEOUT (invoked type data w)).2.
Hypothesis P_conn : forall c f w,
  (forall cn, submitted (f cn) = submitted cn) -> P w (set_conn c f w).2.
Hypothesis P_writer : forall v w, P w (set_writer v w).2.

Lemma dispatch_P text w : P w (dispatch json_loads funcs text w).2.
Proof.
  rewrite dispatch_snd.
  destruct (json_loads text) as [data|]; [|apply P_refl].
  destruct (getitem data (str "type")) as [type|]; [|apply P_refl].
  destruct (eq_str type (str "terminate")); [apply P_stop|].
  destruct (dict_get funcs type) as [[h|]|]; try apply P_refl.
  apply P_call.
Qed.

Lemma resume_read_P c w : P w (resume_read json_loads funcs c w).2.
Proof.
  destruct (readuntil CRLF (reader (conns w c))) as [[chunk|e|] r'] eqn:Hr.
  - rewrite (resume_read_chunk _ _ _ _ _ _ Hr).
    destruct (decode_ascii chunk) as [text|]; cbn [snd].
    + eapply P_trans; [apply P_advance | apply dispatch_P].
    + apply P_advance.
  - rewrite (resume_read_raise _ _ _ _ _ _ Hr). apply P_advance.
  - rewrite (resume_read_wait _ _ _ _ _ Hr). apply P_advance.
Qed.

Lemma iteration_P c w : P w (iteration json_loads funcs c w).2.
Proof.
  destruct (__alive (self w)) eqn:Ha.
  - rewrite (iteration_alive _ _ _ _ Ha). apply resume_read_P.
  - rewrite (iteration_dead _ _ _ _ Ha). apply P_refl.
Qed.

Lemma while_alive_P fuel c w :
  P w (while_alive json_loads funcs fuel c w).2.
Proof.
  revert w. induction fuel as [|fuel IH]; intros w; [apply P_refl|].
  cbn [while_alive]. unfold mbind, M_bind.
  pose proof (iteration_P c w) as Hi.
  destruct (iteration json_loads funcs c w) as [[[| |]|e] w1]; try done.
  eapply P_trans; [exact Hi | apply IH].
Qed.

Lemma conclude_P c w r w1 : P w1 (conclude c w (r, w1)).2.
Proof. rewrite conclude_eq. by apply P_conn. Qed.

Lemma run_loop_P c w : P w (run_loop json_loads funcs c w).2.
Proof.
  unfold run_loop. cbv zeta.
  pose proof (while_alive_P (S (length (_buffer (reader (conns w c))))) c w)
    as Hw.
  destruct (while_alive _ _ _ _ _) as [r w1]. cbn [snd] in Hw.
  eapply P_trans; [exact Hw | apply conclude_P].
Qed.

Lemma resume_P c w : P w (resume json_loads funcs c w).2.
Proof.
  unfold resume. cbv zeta.
  pose proof (resume_read_P c w) as Hr.
  destruct (resume_read json_loads funcs c w) as [[[| |]|e] w1];
    cbn [snd] in Hr.
  - pose proof (while_alive_P (S (length (_buffer (reader (conns w c)))))
                              c w1) as Hw.
    destruct (while_alive _ _ _ _ _) as [r w2]. cbn [snd] in Hw.
    eapply P_trans; [exact Hr|]. eapply P_trans; [exact Hw | apply conclude_P].
  - eapply P_trans; [exact Hr | apply conclude_P].
  - eapply P_trans; [exact Hr | apply conclude_P].
  - eapply P_trans; [exact Hr | apply conclude_P].
Qed.

Lemma act_P a w : P w (act json_loads funcs a w).
Proof.
  destruct a as [c|c data|c|c exc|c]; cbn [act].
  - destruct (task (conns w c)); try apply P_refl.
    unfold handle_connection, mbind, M_bind.
    pose proof (P_writer (Some c) w) as Hw.
    destruct (set_writer (Some c) w) as [[[]|e] w1] eqn:Hs; [|done].
    cbn [snd] in Hw. eapply P_trans; [exact Hw | apply run_loop_P].
  - by apply P_conn.
  - by apply P_conn.
  - unfold connection_lost, mbind, M_bind.
    destruct exc as [e|]; cbn [feed_eof set_exception set_reader];
      (eapply P_trans; [|by apply P_conn]); by apply P_conn.
  - destruct (task (conns w c)); try apply P_refl. apply resume_P.
Qed.

Lemma run_P acts w : P w (run json_loads funcs acts w).
Proof.
  unfold run. revert w. induction acts as [|a acts IH]; intros w;
    [apply P_refl|].
  cbn [foldl]. eapply P_trans; [apply act_P | apply IH].
Qed.

End Turns.

(** The liveness flag is not set by any run. *)
Lemma run_alive json_loads funcs acts w :
  __alive (self (run json_loads funcs acts w)) = true ->
  __alive (self w) = true.
Proof.
  apply (run_P json_loads funcs
               (fun w w' => __alive (self w') = true -> __alive (self w) = true));
    try done; auto.
  - intros w0. destruct (__loop (self w0)) as [lp|] eqn:Hl.
    + by rewrite (stop_started _ _ Hl).
    + by rewrite (stop_unstarted _ Hl).
  - intros fut type data w0.
    destruct (wait_for_same_server fut REQUEST_TIMEOUT (invoked type data w0)
                                   REQUEST_TIMEOUT_pos) as [Hs _].
    by rewrite Hs.
Qed.

(** The event loop of the server is not changed by any run. *)
Lemma run_keeps_loop json_loads funcs acts w :
  __loop (self (run json_loads funcs acts w)) = __loop (self w).
Proof.
  apply (run_P json_loads funcs
               (fun w w' => __loop (self w') = __loop (self w))); try done.
  - intros w1 w2 w3 H1 H2. congruence.
  - intros w0. destruct (__loop (self w0)) as [lp|] eqn:Hl.
    + by rewrite (stop_started _ _ Hl).
    + by rewrite (stop_unstarted _ Hl).
  - intros fut type data w0.
    destruct (wait_for_same_server fut REQUEST_TIMEOUT (invoked type data w0)
                                   REQUEST_TIMEOUT_pos) as [Hs _].
    by rewrite Hs.
Qed.

(** Callbacks are only ever added to the trace, and where none is
    called, no writer is given anything. *)
Lemma run_quiet json_loads funcs acts w :
  let w' := run json_loads funcs acts w in
  (invocations (trace w) <= invocations (trace w'))%nat
  /\ (invocations (trace w') = invocations (trace w) ->
      forall d, submitted (conns w' d) = submitted (conns w d)).
Proof.
  cbv zeta.
  apply (run_P json_loads funcs
               (fun w w' =>
                  (invocations (trace w) <= invocations (trace w'))%nat
                  /\ (invocations (trace w') = invocations (trace w) ->
                      forall d, submitted (conns w' d) = submitted (conns w d)))).
  - done.
  - intros w1 w2 w3 [H1 S1] [H2 S2]. split; [lia|].
    intros Heq d. rewrite S2 by lia. apply S1. lia.
  - intros c r' w0. split; [done|]. intros _ d. apply advance_submitted.
  - intros w0. destruct (__loop (self w0)) as [lp|] eqn:Hl.
    + rewrite (stop_started _ _ Hl). cbn [snd stopped trace conns].
      rewrite invocations_app. cbn. split; [lia | done].
    + by rewrite (stop_unstarted _ Hl).
  - intros fut type data w0.
    rewrite (wait_for_invocations _ _ _ REQUEST_TIMEOUT_pos).
    cbn [invoked trace]. rewrite invocations_app. cbn. split; lia.
  - intros c f w0 Hf. split; [done|]. intros _ d. cbn.
    destruct (decide (c = d)) as [->|Hne].
    + by rewrite fn_lookup_insert, Hf.
    + by rewrite fn_lookup_insert_ne.
  - done.
Qed.

(** ** The loop never runs out of fuel *)

Section Termination.

Variable json_loads : pystr -> result pyval.
Variable funcs : gmap pystr handler.

Lemma dispatch_readers text w d :
  reader (conns (dispatch json_loads funcs text w).2 d) = reader (conns w d).
Proof.
  apply (dispatch_P json_loads funcs
           (fun w w' => reader (conns w' d) = reader (conns w d))).
  - done.
  - intros w0. destruct (__loop (self w0)) as [lp|] eqn:Hl.
    + by rewrite (stop_started _ _ Hl).
    + by rewrite (stop_unstarted _ Hl).
  - intros fut type data w0.
    destruct (wait_for_same_server fut REQUEST_TIMEOUT (invoked type data w0)
                                   REQUEST_TIMEOUT_pos) as [_ Hc].
    by destruct (Hc d) as (-> & _).
Qed.

(** A pass that goes on has made the buffer of its connection
    shorter. *)
Lemma resume_read_Next_shorter c w w' :
  resume_read json_loads funcs c w = (Ok Next, w') ->
  (length (_buffer (reader (conns w' c)))
   < length (_buffer (reader (conns w c))))%nat.
Proof.
  intros H.
  destruct (readuntil CRLF (reader (conns w c))) as [[chunk|e|] r'] eqn:Hr.
  - rewrite (resume_read_chunk _ _ _ _ _ _ Hr) in H.
    destruct (readuntil_RChunk_inv _ _ _ Hr) as (i & Hf & _ & ->).
    pose proof (find_Some_length _ _ _ Hf) as Hl. cbn [length CRLF] in Hl.
    assert (Hadv : reader (conns w' c) = consume (i + 2) (reader (conns w c))).
    { destruct (decode_ascii chunk); inversion H; subst; clear H.
      - rewrite dispatch_readers. unfold advance. cbn [conns].
        by rewrite fn_lookup_insert.
      - unfold advance. cbn [conns]. by rewrite fn_lookup_insert. }
    rewrite Hadv. cbn [consume _buffer]. rewrite length_drop. lia.
  - by rewrite (resume_read_raise _ _ _ _ _ _ Hr) in H.
  - by rewrite (resume_read_wait _ _ _ _ _ Hr) in H.
Qed.

Lemma iteration_Next_shorter c w w' :
  iteration json_loads funcs c w = (Ok Next, w') ->
  (length (_buffer (reader (conns w' c)))
   < length (_buffer (reader (conns w c))))%nat.
Proof.
  intros H. destruct (__alive (self w)) eqn:Ha.
  - rewrite (iteration_alive _ _ _ _ Ha) in H.
    by apply resume_read_Next_shorter.
  - by rewrite (iteration_dead _ _ _ _ Ha) in H.
Qed.

Lemma while_alive_fuel fuel c w :
  (length (_buffer (reader (conns w c))) < fuel)%nat ->
  (while_alive json_loads funcs fuel c w).1 <> Ok OutOfFuel.
Proof.
  revert w. induction fuel as [|fuel IH]; intros w Hl; [lia|].
  cbn [while_alive]. unfold mbind, M_bind.
  destruct (iteration json_loads funcs c w) as [[[| |]|e] w1] eqn:Hi;
    try done.
  apply IH. apply iteration_Next_shorter in Hi. lia.
Qed.

(** A turn runs the loop to its end or to the point where it waits:
    the task is never left as [Diverged], and the turn itself never
    raises. *)
Lemma run_loop_total c w :
  (run_loop json_loads funcs c w).1 = Ok tt
  /\ task (conns (run_loop json_loads funcs c w).2 c) <> Diverged.
Proof.
  unfold run_loop. cbv zeta.
  pose proof (while_alive_fuel
                (S (length (_buffer (reader (conns w c))))) c w
                ltac:(lia)) as Hf.
  destruct (while_alive _ _ _ _ _) as [r w1]. cbn [fst] in Hf.
  rewrite conclude_eq. split; [done|]. cbn. rewrite fn_lookup_insert. cbn.
  destruct r as [[| |]|e]; try done. by destruct (bool_decide _).
Qed.

Lemma resume_total c w :
  (resume json_loads funcs c w).1 = Ok tt
  /\ task (conns (resume json_loads funcs c w).2 c) <> Diverged.
Proof.
  unfold resume. cbv zeta.
  destruct (resume_read json_loads funcs c w) as [[[| |]|e] w1] eqn:Hr.
  - pose proof (resume_read_Next_shorter _ _ _ Hr) as Hs.
    pose proof (while_alive_fuel
                  (S (length (_buffer (reader (conns w c))))) c w1
                  ltac:(lia)) as Hf.
    destruct (while_alive _ _ _ _ _) as [r w2]. cbn [fst] in Hf.
    rewrite conclude_eq. split; [done|]. cbn. rewrite fn_lookup_insert. cbn.
    destruct r as [[| |]|e]; try done. by destruct (bool_decide _).
  - rewrite conclude_eq. split; [done|]. cbn. by rewrite fn_lookup_insert.
  - rewrite conclude_eq. split; [done|]. cbn. by rewrite fn_lookup_insert.
  - rewrite conclude_eq. split; [done|]. cbn. rewrite fn_lookup_insert. cbn.
    by destruct (bool_decide _).
Qed.

End Termination.

(** ** Connection errors *)

Section Connections.

Variable json_loads : pystr -> result pyval.
Variable funcs : gmap pystr handler.

Lemma aborts_advance c r' w : aborts (advance c r' w) = aborts w.
Proof. done. Qed.

(** An exception out of [readuntil] reaches the [except] clause of
    line 116, which raises [AttributeError] in its turn. *)
Lemma resume_raise c w e r' :
  readuntil CRLF (reader (conns w c)) = (RRaise e, r') ->
  resume json_loads funcs c w
  = (Ok tt, failed c AttributeError (advance c r' w)).
Proof.
  intros Hr. unfold resume. cbv zeta.
  rewrite (resume_read_raise _ _ _ _ _ _ Hr), conclude_eq.
  by rewrite aborts_advance, bool_decide_eq_true_2.
Qed.

Lemma run_loop_raise c w e r' :
  __alive (self w) = true ->
  readuntil CRLF (reader (conns w c)) = (RRaise e, r') ->
  run_loop json_loads funcs c w
  = (Ok tt, failed c AttributeError (advance c r' w)).
Proof.
  intros Ha Hr. unfold run_loop. cbv zeta. cbn [while_alive].
  unfold mbind at 1. unfold M_bind at 1.
  rewrite (iteration_raise _ _ _ _ _ _ Ha Hr), conclude_eq.
  by rewrite aborts_advance, bool_decide_eq_true_2.
Qed.

(** What an exception that leaves [handle_connection] on connection
    [c] leaves behind. *)
Lemma failed_effect c e r' w :
  let w' := failed c e (advance c r' w) in
  __writer (self w') = __writer (self w)
  /\ task (conns w' c) = Failed e
  /\ reader (conns w' c) = r'
  /\ __alive (self w') = __alive (self w)
  /\ trace w' = trace w
  /\ forall d, d <> c -> conns w' d = conns w d.
Proof.
  cbv zeta. repeat split.
  - cbn. by rewrite fn_lookup_insert.
  - cbn. by rewrite !fn_lookup_insert.
  - intros d Hne. cbn. by rewrite !fn_lookup_insert_ne.
Qed.

(** C8: when reading from a connection raises a connection error (the
    connection was reset) or [IncompleteReadError] (the stream ended
    before a delimiter), the error does reach the [except] clause of
    line 116, but the clause does not handle it: it names
    [asyncio.streams.IncompleteReadError], which does not exist, and
    evaluating it raises [AttributeError]. Line 117 is not run: the
    writer reference is left as it was, and [handle_connection] does not
    return but raises, so that the task of the connection fails. This
    holds both for a task that is woken up in [readuntil] and for one
    that comes to it from the loop test. *)
Theorem connection_error_not_handled c w e r' :
  readuntil CRLF (reader (conns w c)) = (RRaise e, r') ->
  is_ConnectionError e || is_IncompleteReadError e = true ->
  let w' := failed c AttributeError (advance c r' w) in
  resume json_loads funcs c w = (Ok tt, w')
  /\ (__alive (self w) = true -> run_loop json_loads funcs c w = (Ok tt, w'))
  /\ task (conns w' c) = Failed AttributeError
  /\ __writer (self w') = __writer (self w)
  /\ trace w' = trace w
  /\ forall d, d <> c -> conns w' d = conns w d.
Proof.
  intros Hr _. cbv zeta.
  destruct (failed_effect c AttributeError r' w) as (Hw & Ht & _ & _ & Htr & Hd).
  split; [by apply (resume_raise c w e r')|].
  split; [intros Ha; by apply (run_loop_raise c w e r')|].
  by repeat split.
Qed.

End Connections.

Lemma connection_error_not_handled_witness :
  let w' := act json.loads registry (Wakeup 0%nat) broken in
  __writer (self broken) = Some 0%nat
  /\ task (conns broken 0%nat) = Suspended
  /\ task (conns w' 0%nat) = Failed AttributeError
  /\ __writer (self w') = Some 0%nat.
Proof.
  cbv zeta. split; [reflexivity|]. split; [reflexivity|].
  destruct (connection_error_not_handled json.loads registry 0%nat broken
              ConnectionResetError (reader (conns broken 0%nat)))
    as (Hr & _ & Ht & Hw & _); [reflexivity | reflexivity |].
  change (act json.loads registry (Wakeup 0%nat) broken)
    with (resume json.loads registry 0%nat broken).2.
  rewrite Hr. cbn [snd]. split; [exact Ht|]. by rewrite Hw.
Defined.

(** ** The shared writer *)

Section SharedWriter.

Variable json_loads : pystr -> result pyval.
Variable funcs : gmap pystr handler.





End SharedWriter.




(** ** The server at work *)

(** A frame that is no JSON, then a ping: the first is dropped, the
    second is answered, once. *)
Example not_json_then_ping :
  let w := run json.loads registry
               [DataReceived 0%nat (str "not json" ++ CRLF
                                    ++ dq "{'type':'ping'}" ++ CRLF);
                Wakeup 0%nat]
               serving in
  trace w = [EvInvoke (str "ping") (PDict [(str "type", PStr (str "ping"))])]
  /\ submitted (conns w 0%nat) = str "pong"
  /\ task (conns w 0%nat) = Suspended
  /\ __alive (self w) = true.
Proof. vm_compute. by repeat split. Qed.

(** A terminate frame ends the task that reads it: the frame behind it
    is left in the buffer. A task that waits in [readuntil] goes on
    waiting. *)
Example terminate_then_ping :
  let w := run json.loads registry
               [Connect 1%nat;
                DataReceived 0%nat (dq "{'type':'terminate'}" ++ CRLF
                                    ++ dq "{'type':'ping'}" ++ CRLF);
                Wakeup 0%nat; Wakeup 1%nat]
               serving in
  trace w = [EvLoopStop; EvExit]
  /\ _buffer (reader (conns w 0%nat)) = dq "{'type':'ping'}" ++ CRLF
  /\ task (conns w 0%nat) = Finished
  /\ task (conns w 1%nat) = Suspended
  /\ __alive (self w) = false.
Proof. vm_compute. by repeat split. Qed.

(** A task that waits in [readuntil] when the server is stopped still
    handles the next frame it is given, and only then comes to the loop
    test. *)
Example frame_after_stop :
  let w := run json.loads registry
               [Connect 1%nat;
                DataReceived 0%nat (dq "{'type':'terminate'}" ++ CRLF);
                Wakeup 0%nat;
                DataReceived 1%nat (dq "{'type':'ping'}" ++ CRLF
                                    ++ dq "{'type':'ping'}" ++ CRLF);
                Wakeup 1%nat]
               serving in
  trace w = [EvLoopStop; EvExit;
             EvInvoke (str "ping") (PDict [(str "type", PStr (str "ping"))])]
  /\ submitted (conns w 1%nat) = str "pong"
  /\ _buffer (reader (conns w 1%nat)) = dq "{'type':'ping'}" ++ CRLF
  /\ task (conns w 1%nat) = Finished
  /\ __alive (self w) = false.
Proof. vm_compute. by repeat split. Qed.

(** A callback that catches its cancellation: it is told to stop after
    five seconds, cleans up for ten, and returns; [wait_for] returns
    with it, and no [TimeoutError] is raised. *)
Example cleanup_after_cancel :
  let w := run json.loads unruly
               [DataReceived 0%nat (dq "{'type':'cleanup'}" ++ CRLF)] serving in
  let data := PDict [(str "type", PStr (str "cleanup"))] in
  let end_ := wait_for (cleanup data) REQUEST_TIMEOUT
                       (invoked (str "cleanup") data w) in
  end_.1 = Ok tt
  /\ (now end_.2 == now w + 15)%Q
  /\ trace end_.2 = trace w ++ [EvInvoke (str "cleanup") data; EvCancel].
Proof. vm_compute. by repeat split. Qed.

(** * More of the server *)

(** ** Invariants of a run *)

(** X1: the liveness flag is only ever cleared. Whatever the network and
    the event loop do to a server that is not alive (never started, or
    stopped by a terminate request), it is not alive afterwards: nothing
    in [handle_connection], [stop] or [write] sets [__alive] again. *)
Theorem alive_only_cleared json_loads funcs acts w :
  __alive (self w) = false ->
  __alive (self (run json_loads funcs acts w)) = false.
Proof.
  intros Ha. pose proof (run_alive json_loads funcs acts w) as H.
  destruct (__alive (self (run json_loads funcs acts w))); [|done].
  by rewrite H in Ha.
Qed.

Lemma alive_only_cleared_witness :
  let w := run json.loads registry
               [DataReceived 0%nat (dq "{'type':'terminate'}" ++ CRLF);
                Wakeup 0%nat] serving in
  __alive (self w) = false
  /\ __alive (self (run json.loads registry
                        [Connect 1%nat;
                         DataReceived 1%nat (dq "{'type':'ping'}" ++ CRLF);
                         Wakeup 1%nat] w)) = false.
Proof.
  cbv zeta. split; [reflexivity|].
  apply alive_only_cleared. reflexivity.
Defined.

(** X4: the server sends nothing of its own. Over every run and with
    every registry, if no request callback was called then no writer was
    given a single byte: frames that are dropped, terminate requests,
    connection errors and end of stream are never answered. *)
Theorem no_callback_no_bytes json_loads funcs acts w d :
  invocations (trace (run json_loads funcs acts w)) = invocations (trace w) ->
  submitted (conns (run json_loads funcs acts w) d) = submitted (conns w d).
Proof.
  intros Heq. destruct (run_quiet json_loads funcs acts w) as [_ H].
  by apply H.
Qed.

Lemma no_callback_no_bytes_witness :
  let acts := [DataReceived 0%nat (str "not json" ++ CRLF
                                   ++ dq "{'type':'nope'}" ++ CRLF
                                   ++ dq "{'type':'terminate'}" ++ CRLF);
               Wakeup 0%nat] in
  invocations (trace (run json.loads registry acts serving))
  = invocations (trace serving)
  /\ submitted (conns (run json.loads registry acts serving) 0%nat)
     = submitted (conns serving 0%nat).
Proof.
  cbv zeta. split; [reflexivity|].
  apply no_callback_no_bytes. reflexivity.
Defined.

(** ** A server that is not alive *)

Section NotAlive.

Variable json_loads : pystr -> result pyval.
Variable funcs : gmap pystr handler.

Lemma run_loop_dead c w :
  __alive (self w) = false ->
  run_loop json_loads funcs c w = (Ok tt, (set_task c Finished w).2).
Proof.
  intros Ha. unfold run_loop. cbv zeta. cbn [while_alive].
  unfold mbind, M_bind. by rewrite (iteration_dead _ _ _ _ Ha).
Qed.

(** X7: on a server that is not alive (never started, or stopped),
    [handle_connection] still takes the writer of the new connection as
    the shared writer, but the loop test fails at once: the task ends
    normally, nothing is read from the connection, no callback is
    called, no time goes by and nothing is sent. *)
Theorem stopped_server_reads_nothing c w :
  __alive (self w) = false ->
  let w' := (handle_connection json_loads funcs c w).2 in
  (handle_connection json_loads funcs c w).1 = Ok tt
  /\ task (conns w' c) = Finished
  /\ __writer (self w') = Some c
  /\ reader (conns w' c) = reader (conns w c)
  /\ trace w' = trace w
  /\ now w' = now w
  /\ forall d, submitted (conns w' d) = submitted (conns w d).
Proof.
  intros Ha. cbv zeta. unfold handle_connection, mbind, M_bind.
  cbn [set_writer set_self modify]. rewrite run_loop_dead by done.
  cbn [fst snd]. repeat split.
  - cbn. by rewrite fn_lookup_insert.
  - cbn. by rewrite fn_lookup_insert.
  - intros d. by rewrite set_task_submitted.
Qed.

End NotAlive.

Lemma stopped_server_reads_nothing_witness :
  let w := run json.loads registry
               [DataReceived 0%nat (dq "{'type':'terminate'}" ++ CRLF);
                Wakeup 0%nat;
                DataReceived 1%nat (dq "{'type':'ping'}" ++ CRLF)]
               serving in
  let w' := (handle_connection json.loads registry 1%nat w).2 in
  __alive (self w) = false
  /\ task (conns w' 1%nat) = Finished
  /\ __writer (self w') = Some 1%nat
  /\ _buffer (reader (conns w' 1%nat)) = dq "{'type':'ping'}" ++ CRLF
  /\ trace w' = [EvLoopStop; EvExit]
  /\ submitted (conns w' 1%nat) = [].
Proof.
  cbv zeta.
  set (w := run json.loads registry
                [DataReceived 0%nat (dq "{'type':'terminate'}" ++ CRLF);
                 Wakeup 0%nat;
                 DataReceived 1%nat (dq "{'type':'ping'}" ++ CRLF)]
                serving).
  split; [reflexivity|].
  destruct (stopped_server_reads_nothing json.loads registry 1%nat w)
    as (_ & Ht & Hw & Hr & Htr & _ & Hs); [reflexivity|].
  split; [exact Ht|]. split; [exact Hw|].
  split; [by rewrite Hr|]. split; [by rewrite Htr | by rewrite Hs].
Defined.

(** ** Reads the loop does not survive *)

Section Overrun.

Variable json_loads : pystr -> result pyval.
Variable funcs : gmap pystr handler.

(** X8: a frame longer than the limit of the stream (65536 bytes before
    the delimiter, or as many without one) makes [readuntil] raise
    [LimitOverrunError]. The exception reaches the [except] clause of
    line 116, which raises [AttributeError] before it has tried to
    match: that exception leaves [handle_connection] (the task fails
    with it), the writer reference is not cleared, the bytes stay in
    the buffer and the server stays alive. *)
Theorem overlong_frame_fails_task c w :
  __alive (self w) = true ->
  over_limit (reader (conns w c)) ->
  let w' := (run_loop json_loads funcs c w).2 in
  task (conns w' c) = Failed AttributeError
  /\ __writer (self w') = __writer (self w)
  /\ reader (conns w' c) = reader (conns w c)
  /\ __alive (self w') = true
  /\ trace w' = trace w.
Proof.
  intros Ha Ho. cbv zeta.
  rewrite (run_loop_raise _ _ c w _ _ Ha (readuntil_overrun _ Ho)).
  cbn [snd].
  destruct (failed_effect c AttributeError (reader (conns w c)) w)
    as (Hw & Ht & Hr & Hal & Htr & _).
  by repeat split.
Qed.

End Overrun.

Lemma overlong_frame_fails_task_witness :
  let w := run json.loads registry
               [DataReceived 0%nat (repeat 97 (N.to_nat 65538))] serving in
  let w' := (run_loop json.loads registry 0%nat w).2 in
  over_limit (reader (conns w 0%nat))
  /\ task (conns w' 0%nat) = Failed AttributeError
  /\ __writer (self w') = Some 0%nat.
Proof.
  cbv zeta.
  set (w := run json.loads registry
                [DataReceived 0%nat (repeat 97 (N.to_nat 65538))] serving).
  assert (Ho : over_limit (reader (conns w 0%nat))).
  { split; [reflexivity|]. right.
    split; [vm_compute; reflexivity | vm_compute; reflexivity]. }
  split; [exact Ho|].
  destruct (overlong_frame_fails_task json.loads registry 0%nat w)
    as (Ht & Hw & _); [reflexivity | exact Ho |].
  split; [exact Ht|]. rewrite Hw. reflexivity.
Defined.

(** ** ASCII messages *)

Lemma encode_ascii message :
  forallb (fun x => x <? 128) message = true -> encode message = Ok message.
Proof.
  induction message as [|c s IH]; intros H; [done|].
  cbn [forallb] in H. apply andb_prop in H as [Hc Hs].
  cbn [encode]. unfold encode_char.
  change (c <? 0x80) with (c <? 128). by rewrite Hc, (IH Hs).
Qed.

Lemma replace_ascii message :
  forallb (fun x => x <? 128) message = true ->
  forallb (fun x => x <? 128) (replace PERCENT (str "%%") message) = true.
Proof.
  induction message as [|c s IH]; intros H; [done|].
  cbn [forallb] in H. apply andb_prop in H as [Hc Hs].
  rewrite replace_cons, forallb_app, (IH Hs), andb_true_r.
  destruct (c =? PERCENT); [done|]. cbn [forallb]. by rewrite Hc.
Qed.

(** X10: for a message of ASCII characters [write] hands the writer one
    byte for each character: the message itself with every '%'
    written twice, and no delimiter after it. What is sent decodes as
    ASCII to that same text, as a peer that reads like this server
    would decode it. *)
Theorem write_ascii message c w :
  __writer (self w) = Some c ->
  forallb (fun x => x <? 128) message = true ->
  let sent := replace PERCENT (str "%%") message in
  write message w = (Ok (negb (drain_fails w c)), submit c sent w)
  /\ submitted (conns (write message w).2 c) = submitted (conns w c) ++ sent
  /\ decode_ascii sent = Ok sent.
Proof.
  intros Hw Ha sent.
  pose proof (replace_ascii _ Ha) as Hs. fold sent in Hs.
  rewrite (write_attached _ _ _ _ Hw (encode_ascii _ Hs)).
  cbn [snd]. rewrite submit_submitted. repeat split.
  unfold decode_ascii. by rewrite Hs.
Qed.

Lemma write_ascii_witness :
  write (str "50% done") serving
  = (Ok (negb (drain_fails serving 0%nat)),
     submit 0%nat (str "50%% done") serving)
  /\ submitted (conns (write (str "50% done") serving).2 0%nat)
     = submitted (conns serving 0%nat) ++ str "50%% done"
  /\ decode_ascii (str "50%% done") = Ok (str "50%% done").
Proof.
  apply (write_ascii (str "50% done") 0%nat serving); reflexivity.
Defined.

(** ** Frames that arrive in pieces *)

Section Pieces.

Variable json_loads : pystr -> result pyval.
Variable funcs : gmap pystr handler.

Lemma wakeup_partial c w :
  __alive (self w) = true ->
  task (conns w c) = Suspended ->
  _exception (reader (conns w c)) = None ->
  _eof (reader (conns w c)) = false ->
  find CRLF (_buffer (reader (conns w c))) = None ->
  N.of_nat (length (_buffer (reader (conns w c))))
  <= _limit (reader (conns w c)) + 1 ->
  act json_loads funcs (Wakeup c) w = w.
Proof.
  intros Ha Ht He Heof Hf Hl. cbn [act]. rewrite Ht.
  unfold resume. cbv zeta.
  rewrite (resume_read_wait _ _ _ _ _ (readuntil_waits _ He Heof Hf Hl)),
    conclude_eq.
  apply world_eq; try done. intros d. cbn.
  destruct (decide (c = d)) as [->|Hne].
  - rewrite !fn_lookup_insert. cbn. rewrite <- Ht. by destruct (conns w d).
  - by rewrite !fn_lookup_insert_ne.
Qed.

(** X11: a wake-up that finds no whole frame changes nothing: while the
    server is alive and the stream is open, the bytes of a frame whose
    delimiter has not arrived stay in the buffer and the task goes back
    to waiting, with the world exactly as it was. *)
Theorem partial_frame_waits c w :
  __alive (self w) = true ->
  task (conns w c) = Suspended ->
  _exception (reader (conns w c)) = None ->
  _eof (reader (conns w c)) = false ->
  find CRLF (_buffer (reader (conns w c))) = None ->
  N.of_nat (length (_buffer (reader (conns w c))))
  <= _limit (reader (conns w c)) + 1 ->
  run_loop json_loads funcs c w = (Ok tt, w).
Proof.
  intros Ha Ht He Heof Hf Hl. unfold run_loop. cbv zeta.
  cbn [while_alive]. unfold mbind at 1. unfold M_bind at 1.
  rewrite (iteration_wait _ _ _ _ _ Ha (readuntil_waits _ He Heof Hf Hl)).
  cbv beta iota. unfold mret, M_ret. rewrite conclude_eq.
  unfold set_task, set_conn, modify. f_equal.
  apply world_eq; try done. intros d. cbn.
  destruct (decide (c = d)) as [->|Hne].
  - rewrite !fn_lookup_insert. cbn. rewrite <- Ht. by destruct (conns w d).
  - by rewrite !fn_lookup_insert_ne.
Qed.

(** X12: how the bytes of a connection are cut into pieces does not
    matter. If a first piece leaves the buffer without a whole frame,
    then handling it, the next piece and a wake-up each in turn gives
    the same world as the two pieces arriving as one. *)
Theorem split_frame_delivery c w a b :
  __alive (self w) = true ->
  task (conns w c) = Suspended ->
  _exception (reader (conns w c)) = None ->
  _eof (reader (conns w c)) = false ->
  find CRLF (_buffer (reader (conns w c)) ++ a) = None ->
  N.of_nat (length (_buffer (reader (conns w c)) ++ a))
  <= _limit (reader (conns w c)) + 1 ->
  run json_loads funcs
      [DataReceived c a; Wakeup c; DataReceived c b; Wakeup c] w
  = run json_loads funcs [DataReceived c (a ++ b); Wakeup c] w.
Proof.
  intros Ha Ht He Heof Hf Hl. unfold run. cbn [foldl].
  rewrite (wakeup_partial c (act json_loads funcs (DataReceived c a) w)).
  2-7: cbn; rewrite ?fn_lookup_insert; done.
  f_equal. apply world_eq; try done. intros d. cbn.
  destruct (decide (c = d)) as [->|Hne].
  - rewrite !fn_lookup_insert. cbn. by rewrite app_assoc.
  - by rewrite !fn_lookup_insert_ne.
Qed.

(** X13: a terminate request ends the turn of its task at once. The
    frames behind it in the buffer are never read, the task ends
    normally, [loop.stop()] and [exit()] are the only events, nothing is
    sent, and the writer reference is left as it was. *)
Theorem terminate_ends_turn c w chunk r' text data lp :
  __alive (self w) = true ->
  __loop (self w) = Some lp ->
  readuntil CRLF (reader (conns w c)) = (RChunk chunk, r') ->
  decode_ascii chunk = Ok text ->
  json_loads text = Ok data ->
  getitem data (str "type") = Ok (PStr (str "terminate")) ->
  let w' := (run_loop json_loads funcs c w).2 in
  task (conns w' c) = Finished
  /\ reader (conns w' c) = r'
  /\ __alive (self w') = false
  /\ __writer (self w') = __writer (self w)
  /\ trace w' = trace w ++ [EvLoopStop; EvExit]
  /\ forall d, submitted (conns w' d) = submitted (conns w d).
Proof.
  intros Ha Hl Hr Hd Hj Hg. cbv zeta.
  assert (Hrun : run_loop json_loads funcs c w
                 = (Ok tt, (set_task c Finished (stopped (advance c r' w))).2)).
  { unfold run_loop. cbv zeta.
    destruct (readuntil_RChunk_inv _ _ _ Hr) as (i & Hf & _ & _).
    pose proof (find_Some_length _ _ _ Hf) as Hlen. cbn [length CRLF] in Hlen.
    destruct (length (_buffer (reader (conns w c)))) as [|n]; [lia|].
    cbn [while_alive]. unfold mbind at 1. unfold M_bind at 1.
    rewrite (iteration_chunk _ _ _ _ _ _ Ha Hr), Hd, dispatch_eq, Hj, Hg.
    cbn [eq_str]. rewrite bool_decide_eq_true_2 by done.
    rewrite (stop_started (advance c r' w) lp Hl). cbn [fst snd].
    unfold mbind, M_bind. rewrite iteration_dead by done.
    unfold mret, M_ret. by rewrite conclude_eq. }
  rewrite Hrun. cbn [snd]. repeat split.
  - cbn. by rewrite fn_lookup_insert.
  - cbn. by rewrite !fn_lookup_insert.
  - intros d. rewrite set_task_submitted. cbn [stopped conns].
    apply advance_submitted.
Qed.

End Pieces.

Lemma partial_frame_waits_witness :
  let w := run json.loads registry
               [DataReceived 0%nat (dq "{'type':")] serving in
  __alive (self w) = true
  /\ _buffer (reader (conns w 0%nat)) = dq "{'type':"
  /\ run_loop json.loads registry 0%nat w = (Ok tt, w).
Proof.
  cbv zeta. split; [reflexivity|]. split; [reflexivity|].
  apply partial_frame_waits; try reflexivity. vm_compute. discriminate.
Defined.

Lemma split_frame_delivery_witness :
  let a := dq "{'type':'pi" in
  let b := dq "ng'}" ++ CRLF in
  run json.loads registry
      [DataReceived 0%nat a; Wakeup 0%nat; DataReceived 0%nat b; Wakeup 0%nat]
      serving
  = run json.loads registry [DataReceived 0%nat (a ++ b); Wakeup 0%nat] serving
  /\ submitted (conns (run json.loads registry
                           [DataReceived 0%nat (a ++ b); Wakeup 0%nat] serving)
                      0%nat)
     = str "pong".
Proof.
  cbv zeta. split; [|reflexivity].
  apply split_frame_delivery; try reflexivity. vm_compute. discriminate.
Defined.

Lemma terminate_ends_turn_witness :
  let w := run json.loads registry
               [DataReceived 0%nat (dq "{'type':'terminate'}" ++ CRLF
                                    ++ dq "{'type':'ping'}" ++ CRLF)]
               serving in
  let w' := (run_loop json.loads registry 0%nat w).2 in
  task (conns w' 0%nat) = Finished
  /\ _buffer (reader (conns w' 0%nat)) = dq "{'type':'ping'}" ++ CRLF
  /\ __alive (self w') = false
  /\ __writer (self w') = Some 0%nat
  /\ trace w' = [EvLoopStop; EvExit].
Proof.
  cbv zeta.
  set (w := run json.loads registry
                [DataReceived 0%nat (dq "{'type':'terminate'}" ++ CRLF
                                     ++ dq "{'type':'ping'}" ++ CRLF)]
                serving).
  destruct (terminate_ends_turn json.loads registry 0%nat w
              (dq "{'type':'terminate'}" ++ CRLF)
              (mkReader (dq "{'type':'ping'}" ++ CRLF) false None _DEFAULT_LIMIT)
              (dq "{'type':'terminate'}" ++ CRLF)
              (PDict [(str "type", PStr (str "terminate"))])
              TheEventLoop)
    as (Ht & Hr & Ha & Hw & Htr & _); try reflexivity.
  split; [exact Ht|]. split; [by rewrite Hr|]. split; [exact Ha|].
  split; [by rewrite Hw | by rewrite Htr].
Defined.

(** ** [start] and [stop] *)

(** X14: [stop()] never returns to its caller, and what it does depends
    on [start()] alone. On a server that was started, whatever has
    happened to it since, it stops the event loop, clears the liveness
    flag, calls [exit()] and so raises [SystemExit]; on a server that
    was only constructed, [self.__loop.stop()] raises [AttributeError]
    before anything is done, and the server is left as it was. *)
Theorem stop_needs_start json_loads funcs acts port :
  (let w := run json_loads funcs acts (started port) in
   stop w = (Raise SystemExit, stopped w)
   /\ __alive (self (stopped w)) = false)
  /\ (let w := run json_loads funcs acts (__init__ port) in
      stop w = (Raise AttributeError, w)
      /\ __alive (self w) = false).
Proof.
  cbv zeta. split; split.
  - apply (stop_started _ TheEventLoop). by rewrite run_keeps_loop.
  - done.
  - apply stop_unstarted. by rewrite run_keeps_loop.
  - pose proof (run_alive json_loads funcs acts (__init__ port)) as H.
    destruct (__alive (self (run json_loads funcs acts (__init__ port))));
      [|done].
    by specialize (H eq_refl).
Qed.
